(** * Plaster effect: a shallow embedding of [utils/plaster-effect.ts]

    The pipeline of [renderPlasterEffect] and its helpers, over exact
    arithmetic: a JavaScript [number] that holds a sample is a real ([R]),
    a [number] that holds a loop counter, a coordinate or an array index is
    an integer ([Z]); a [Float32Array] is a [list R] and the
    [Uint8ClampedArray] of an [ImageData] is a [list Z].  Rounding to
    binary32/binary64 is not modelled, and neither are NaN and the
    infinities, except for the two infinities that [normaliseArray] starts
    its scan from. *)

From Stdlib Require Import ZArith Reals Lra Lia Psatz Zfloor.
From Stdlib Require Floats.PrimFloat.
From stdpp Require Import base list.

Local Open Scope Z_scope.
Local Open Scope R_scope.

(** ** Numbers *)

(** [clamp = (value, min, max) => Math.min(max, Math.max(min, value))]. *)
Definition clamp (value min max : R) : R :=
  Rmin max (Rmax min value).

(** The same function where the source applies it to pixel coordinates. *)
Definition clampZ (value min max : Z) : Z :=
  Z.min max (Z.max min value).

(** [Math.round]: the nearest integer, halves towards plus infinity. *)
Definition Math_round (x : R) : Z :=
  Zfloor (x + 1 / 2).

(** The conversion a [Uint8ClampedArray] store applies: clamp to 0..255 and
    round to the nearest integer, halves to the even neighbour. *)
Definition toUint8Clamp (x : R) : Z :=
  if Rle_dec x 0 then 0%Z
  else if Rle_dec 255 x then 255%Z
  else
    let f := Zfloor x in
    if Rlt_dec (IZR f + 1 / 2) x then (f + 1)%Z
    else if Rlt_dec x (IZR f + 1 / 2) then f
    else if Z.even f then f else (f + 1)%Z.

(** ** Typed arrays and [for] loops *)

(** [a[i]]; the default [d] stands for a read outside the array, which no
    loop below performs on a field of [width * height] samples. *)
Definition aget {A : Type} (d : A) (a : list A) (i : Z) : A :=
  if (i <? 0)%Z then d else default d (a !! Z.to_nat i).

(** [a[i] = v]; a typed array ignores a store outside its bounds. *)
Definition aset {A : Type} (a : list A) (i : Z) (v : A) : list A :=
  if (i <? 0)%Z then a else <[Z.to_nat i := v]> a.

(** [a.length]. *)
Definition alen {A : Type} (a : list A) : Z :=
  Z.of_nat (length a).

(** [new Float32Array(n)]: [n] zeros. *)
Definition newArray (n : Z) : list R :=
  replicate (Z.to_nat n) 0.

(** [n] iterations of [body], the counter starting at [i] and advancing by
    [step]. *)
Fixpoint for_loop {St : Type} (n : nat) (i step : Z) (body : Z -> St -> St) (s : St) : St :=
  match n with
  | O => s
  | S n' => for_loop n' (i + step)%Z step body (body i s)
  end.

(** [for (let i = lo; i < hi; i++) body]. *)
Definition for_range {St : Type} (lo hi : Z) (body : Z -> St -> St) (s : St) : St :=
  for_loop (Z.to_nat (hi - lo)) lo 1 body s.

(** [for (let i = 0; i < hi; i += 4) body]. *)
Definition for_range4 {St : Type} (hi : Z) (body : Z -> St -> St) (s : St) : St :=
  for_loop (Z.to_nat ((hi + 3) / 4)) 0 4 body s.

(** ** Tone curve helpers *)

Definition contrastTransform (value contrast : R) : R :=
  let factor := (259 * (contrast + 255)) / (255 * (259 - contrast)) in
  clamp (factor * (value - 128) + 128) 0 255.

(** The two arms of the conditional in [softLight]. *)
Definition softLight_low (b c : R) : R :=
  2 * b * c + b * b * (1 - 2 * c).

Definition softLight_high (b c : R) : R :=
  2 * b * (1 - c) + sqrt b * (2 * c - 1).

Definition softLight (base blend : R) : R :=
  let b := base / 255 in
  let c := blend / 255 in
  let result := if Rlt_dec c (1 / 2) then softLight_low b c else softLight_high b c in
  clamp (result * 255) 0 255.

(** ** Sobel *)

Definition kernelX : list R := [-1; 0; 1; -2; 0; 2; -1; 0; 1].
Definition kernelY : list R := [-1; -2; -1; 0; 0; 0; 1; 2; 1].

(** The accumulators of the two inner loops of [applySobel]. *)
Record SobelAcc : Type := mkSobelAcc { gx : R; gy : R; kidx : Z }.

Definition sobelStep (map : list R) (width x y ky kx : Z) (st : SobelAcc) : SobelAcc :=
  let sample := aget 0 map ((y + ky) * width + (x + kx))%Z in
  mkSobelAcc (gx st + sample * aget 0 kernelX (kidx st))
             (gy st + sample * aget 0 kernelY (kidx st))
             (kidx st + 1)%Z.

Definition sobelGradient (map : list R) (width x y : Z) : SobelAcc :=
  for_range (-1) 2 (fun ky st =>
    for_range (-1) 2 (fun kx st => sobelStep map width x y ky kx st) st)
    (mkSobelAcc 0 0 0%Z).

Definition sobelMagnitude (map : list R) (width x y : Z) : R :=
  let g := sobelGradient map width x y in
  sqrt (gx g * gx g + gy g * gy g).

Definition applySobel (map : list R) (width height : Z) : list R :=
  let result := newArray (alen map) in
  for_range 1 (height - 1) (fun y result =>
    for_range 1 (width - 1) (fun x result =>
      aset result (y * width + x)%Z (sobelMagnitude map width x y)) result) result.

(** ** Gaussian blur *)

(** The unnormalised weight the first kernel loop stores at index [i]. *)
Definition kernelValue (radius i : Z) : R :=
  let x := (i - radius)%Z in
  exp (- (IZR x * IZR x) / (2 * IZR radius * IZR radius)).

(** First kernel loop: fills the kernel and totals it. *)
Definition kernelFill (radius : Z) : list R * R :=
  let kernelSize := (radius * 2 + 1)%Z in
  for_range 0 kernelSize (fun i st =>
    let value := kernelValue radius i in
    (aset (fst st) i value, snd st + value)) (newArray kernelSize, 0).

(** Second kernel loop: [kernel[i] /= kernelSum]. *)
Definition gaussKernel (radius : Z) : list R :=
  let kernelSize := (radius * 2 + 1)%Z in
  let (kernel, kernelSum) := kernelFill radius in
  for_range 0 kernelSize (fun i kernel =>
    aset kernel i (aget 0 kernel i / kernelSum)) kernel.

(** The accumulator of the horizontal pass at [(x, y)]. *)
Definition blurRowAt (source kernel : list R) (width radius x y : Z) : R :=
  for_range (- radius) (radius + 1) (fun k accum =>
    let sampleX := clampZ (x + k) 0 (width - 1) in
    accum + aget 0 source (y * width + sampleX)%Z * aget 0 kernel (k + radius)%Z) 0.

(** The accumulator of the vertical pass at [(x, y)]. *)
Definition blurColAt (horizontal kernel : list R) (width height radius x y : Z) : R :=
  for_range (- radius) (radius + 1) (fun k accum =>
    let sampleY := clampZ (y + k) 0 (height - 1) in
    accum + aget 0 horizontal (sampleY * width + x)%Z * aget 0 kernel (k + radius)%Z) 0.

(** The horizontal pass: every row convolved with the kernel. *)
Definition horizontalPass (source kernel : list R) (width height radius : Z) : list R :=
  for_range 0 height (fun y horizontal =>
    for_range 0 width (fun x horizontal =>
      aset horizontal (y * width + x)%Z (blurRowAt source kernel width radius x y))
      horizontal) (newArray (alen source)).

(** The vertical pass, over the result of the horizontal one. *)
Definition verticalPass (source horizontal kernel : list R) (width height radius : Z) : list R :=
  for_range 0 width (fun x vertical =>
    for_range 0 height (fun y vertical =>
      aset vertical (y * width + x)%Z (blurColAt horizontal kernel width height radius x y))
      vertical) (newArray (alen source)).

Definition gaussianBlur (source : list R) (width height radius : Z) : list R :=
  if (radius <=? 0)%Z then source
  else
    let kernel := gaussKernel radius in
    let horizontal := horizontalPass source kernel width height radius in
    verticalPass source horizontal kernel width height radius.

(** ** Normalisation *)

(** A [number] that may still be one of the infinities the scan of
    [normaliseArray] starts from. *)
Inductive xnum : Type :=
| NegInf : xnum
| Fin : R -> xnum
| PosInf : xnum.

(** [value < m]. *)
Definition below (value : R) (m : xnum) : bool :=
  match m with
  | NegInf => false
  | Fin r => if Rlt_dec value r then true else false
  | PosInf => true
  end.

(** [value > m]. *)
Definition above (value : R) (m : xnum) : bool :=
  match m with
  | NegInf => true
  | Fin r => if Rlt_dec r value then true else false
  | PosInf => false
  end.

(** The first loop of [normaliseArray]: the running [(min, max)]. *)
Definition scanMinMax (source : list R) : xnum * xnum :=
  for_range 0 (alen source) (fun i st =>
    let value := aget 0 source i in
    let min := if below value (fst st) then Fin value else fst st in
    let max := if above value (snd st) then Fin value else snd st in
    (min, max)) (PosInf, NegInf).

(** [max - min || 1]. *)
Definition rangeOf (min max : R) : R :=
  if Req_dec_T (max - min) 0 then 1 else max - min.

(** [normaliseArray].  The scan leaves an infinity in [min] or [max] only
    when [source] is empty, and then the result is the empty array. *)
Definition normaliseArray (source : list R) : list R :=
  match scanMinMax source with
  | (Fin min, Fin max) =>
      let range := rangeOf min max in
      for_range 0 (alen source) (fun i target =>
        aset target i ((aget 0 source i - min) / range)) (newArray (alen source))
  | _ => newArray (alen source)
  end.

(** ** Crop planning *)

Definition OUTPUT_WIDTH : Z := 900.
Definition OUTPUT_HEIGHT : Z := 1200.

(** What the pipeline reads of a [CanvasImageSource]: its [width] and
    [height] properties when it has them, and its pixels (RGBA bytes). *)
Record CanvasImageSource : Type := mkSource {
  src_width : option Z;
  src_height : option Z;
  src_data : list Z
}.

Record CropRegion : Type := mkCrop {
  offsetX : R;
  offsetY : R;
  cropWidth : R;
  cropHeight : R
}.

(** ["width" in source ? source.width : OUTPUT_WIDTH], and likewise. *)
Definition sourceWidth (source : CanvasImageSource) : R :=
  match src_width source with
  | Some w => IZR w
  | None => IZR OUTPUT_WIDTH
  end.

Definition sourceHeight (source : CanvasImageSource) : R :=
  match src_height source with
  | Some h => IZR h
  | None => IZR OUTPUT_HEIGHT
  end.

(** [(cropWidth, cropHeight)] after the aspect branch, before the zoom. *)
Definition cropBeforeZoom (source : CanvasImageSource) (aspectRatio : R) : R * R :=
  let width := sourceWidth source in
  let height := sourceHeight source in
  let ratio := width / height in
  if Rlt_dec aspectRatio ratio
  then (height * aspectRatio, height)
  else (width, width / aspectRatio).

Definition cropToAspect (source : CanvasImageSource) (aspectRatio zoomFactor : R) : CropRegion :=
  let width := sourceWidth source in
  let height := sourceHeight source in
  let (cropWidth, cropHeight) := cropBeforeZoom source aspectRatio in
  let zoom := clamp zoomFactor 0 60 / 100 + 1 in
  let cropWidth := cropWidth / zoom in
  let cropHeight := cropHeight / zoom in
  let offsetX := (width - cropWidth) / 2 in
  let offsetY := (height - cropHeight) / 2 in
  mkCrop offsetX offsetY cropWidth cropHeight.

(** ** Settings and the scalar fields of a render *)

Record EffectSettings : Type := mkSettings {
  depth : R;
  luminosity : R;
  sheen : R;
  matte : R;
  smoothness : R;
  microDetail : R;
  backgroundLift : R;
  macroZoom : R;
  standHeight : R;
  vignette : R
}.

(** The first loop over [data]: one luminance sample per RGBA quadruple. *)
Definition luminanceOf (data : list Z) (width height : Z) : list R :=
  for_range4 (alen data) (fun i luminance =>
    let gray := IZR (aget 0%Z data i) * (299 / 1000)
                + IZR (aget 0%Z data (i + 1)%Z) * (587 / 1000)
                + IZR (aget 0%Z data (i + 2)%Z) * (114 / 1000) in
    let index := (i / 4)%Z in
    aset luminance index gray) (newArray (width * height)%Z).

Definition blurRadiusOf (settings : EffectSettings) : Z :=
  Math_round (clamp (smoothness settings) 0 100 / 18).

Definition smoothedOf (settings : EffectSettings) (data : list Z) (width height : Z) : list R :=
  gaussianBlur (luminanceOf data width height) width height (blurRadiusOf settings).

Definition detailSourceOf (settings : EffectSettings) (data : list Z) (width height : Z) : list R :=
  let luminance := luminanceOf data width height in
  let smoothed := smoothedOf settings data width height in
  for_range 0 (alen luminance) (fun i detailSource =>
    aset detailSource i (aget 0 luminance i - aget 0 smoothed i))
    (newArray (alen luminance)).

Definition normalisedDetailOf (settings : EffectSettings) (data : list Z) (width height : Z) : list R :=
  normaliseArray (detailSourceOf settings data width height).

Definition normalisedSobelOf (settings : EffectSettings) (data : list Z) (width height : Z) : list R :=
  normaliseArray (applySobel (smoothedOf settings data width height) width height).

Definition detailStrengthOf (settings : EffectSettings) : R :=
  clamp (microDetail settings) 0 100 / 100.

Definition depthStrengthOf (settings : EffectSettings) : R :=
  clamp (depth settings) 0 100 / 100.

Definition sheenStrengthOf (settings : EffectSettings) : R :=
  clamp (sheen settings) 0 100 / 100.

Definition matteStrengthOf (settings : EffectSettings) : R :=
  clamp (matte settings) 0 100 / 100.

Definition luminosityShiftOf (settings : EffectSettings) : R :=
  (clamp (luminosity settings) (-50) 50 / 50) * 15.

(** ** Tone mapping *)

(** [micro], the term the microDetail step adds. *)
Definition microTerm (detailStrength nDetail : R) : R :=
  (nDetail - 1 / 2) * 80 * detailStrength.

(** [contour], the term the contour step adds. *)
Definition contourTerm (depthStrength nSobel : R) : R :=
  (nSobel - 4 / 10) * 140 * depthStrength.

(** The body of the second loop over [data], from [smoothed[idx]] to the
    value stored into the three colour channels. *)
Definition toneValue (settings : EffectSettings) (smoothedV nDetail nSobel : R) : R :=
  let value := smoothedV in
  let value := contrastTransform value (30 + depthStrengthOf settings * 90) in
  let value := clamp (value + luminosityShiftOf settings) 0 255 in
  let micro := microTerm (detailStrengthOf settings) nDetail in
  let value := clamp (value + micro) 0 255 in
  let contour := contourTerm (depthStrengthOf settings) nSobel in
  let value := clamp (value + contour) 0 255 in
  let value :=
    if Rlt_dec 210 value
    then
      let boost := (value - 210) * (8 / 10) * sheenStrengthOf settings in
      clamp (softLight value (value + boost)) 0 255
    else value in
  let value :=
    if Rlt_dec value 80
    then
      let liftShadows := (80 - value) * (6 / 10) * matteStrengthOf settings in
      clamp (value + liftShadows) 0 255
    else value in
  value.

(** The second loop over [data]: the tone-mapped value goes into the red,
    green and blue bytes of each pixel, through the clamped-byte store. *)
Definition toneMapPass (settings : EffectSettings) (data : list Z) (width height : Z) : list Z :=
  let smoothed := smoothedOf settings data width height in
  let normalisedDetail := normalisedDetailOf settings data width height in
  let normalisedSobel := normalisedSobelOf settings data width height in
  for_range4 (alen data) (fun i data =>
    let idx := (i / 4)%Z in
    let value := toneValue settings (aget 0 smoothed idx)
                   (aget 0 normalisedDetail idx) (aget 0 normalisedSobel idx) in
    let data := aset data i (toUint8Clamp value) in
    let data := aset data (i + 1)%Z (toUint8Clamp value) in
    let data := aset data (i + 2)%Z (toUint8Clamp value) in
    data) data.

(** ** The 2D canvas *)

(** A pixel of the canvas bitmap: premultiplied colour and coverage, each
    in the unit interval. *)
Record Px : Type := mkPx { pr : R; pg : R; pb : R; pa : R }.

(** One pixel of an [ImageData]: four bytes. *)
Record RGBA : Type := mkRGBA { red : Z; green : Z; blue : Z; alpha : Z }.

(** A CSS colour: [rgba(r,g,b,a)], or [#rrggbb] with [a = 1]. *)
Record Colour : Type := mkColour { cr : R; cg : R; cb : R; ca : R }.

Inductive GradientLine : Type :=
| Linear (x0 y0 x1 y1 : R)
| Radial (x0 y0 r0 x1 y1 r1 : R).

Record CanvasGradient : Type := mkGradient {
  gradientLine : GradientLine;
  colorStops : list (R * Colour)
}.

Definition createLinearGradient (x0 y0 x1 y1 : R) : CanvasGradient :=
  mkGradient (Linear x0 y0 x1 y1) [].

Definition createRadialGradient (x0 y0 r0 x1 y1 r1 : R) : CanvasGradient :=
  mkGradient (Radial x0 y0 r0 x1 y1 r1) [].

Definition addColorStop (g : CanvasGradient) (offset : R) (colour : Colour) : CanvasGradient :=
  mkGradient (gradientLine g) (colorStops g ++ [(offset, colour)]).

Inductive CompositeOp : Type :=
| SourceOver
| Multiply.

Record Rect : Type := mkRect { rx : R; ry : R; rw : R; rh : R }.

(** What the user agent decides: how a gradient fill of a rectangle and a
    scaled image cover each pixel of the frame, and how a bitmap pixel is
    converted to and from the bytes of an [ImageData]. *)
Record UserAgent : Type := mkUserAgent {
  rasterise : CanvasGradient -> Rect -> Z -> Px;
  resample : CanvasImageSource -> CropRegion -> Rect -> Z -> Px;
  readPixel : Px -> RGBA;
  writePixel : RGBA -> Px
}.

(** The drawing state the render touches, and the bitmap. *)
Record Context : Type := mkContext {
  bitmap : list Px;
  fillStyle : CanvasGradient;
  globalCompositeOperation : CompositeOp
}.

Definition transparent : Px := mkPx 0 0 0 0.

(** Porter-Duff source-over, and the multiply blend mode composited
    source-over, on premultiplied pixels. *)
Definition composite (op : CompositeOp) (s d : Px) : Px :=
  match op with
  | SourceOver =>
      mkPx (pr s + pr d * (1 - pa s)) (pg s + pg d * (1 - pa s))
           (pb s + pb d * (1 - pa s)) (pa s + pa d * (1 - pa s))
  | Multiply =>
      mkPx (pr s * pr d + pr s * (1 - pa d) + pr d * (1 - pa s))
           (pg s * pg d + pg s * (1 - pa d) + pg d * (1 - pa s))
           (pb s * pb d + pb s * (1 - pa d) + pb d * (1 - pa s))
           (pa s + pa d * (1 - pa s))
  end.

(** [context.clearRect] over the whole frame. *)
Definition clearRect (c : Context) : Context :=
  mkContext (map (fun _ => transparent) (bitmap c)) (fillStyle c) (globalCompositeOperation c).

Definition setFillStyle (g : CanvasGradient) (c : Context) : Context :=
  mkContext (bitmap c) g (globalCompositeOperation c).

Definition setCompositeOperation (op : CompositeOp) (c : Context) : Context :=
  mkContext (bitmap c) (fillStyle c) op.

Definition fillRect (ua : UserAgent) (r : Rect) (c : Context) : Context :=
  mkContext
    (imap (fun p d =>
       composite (globalCompositeOperation c) (rasterise ua (fillStyle c) r (Z.of_nat p)) d)
       (bitmap c))
    (fillStyle c) (globalCompositeOperation c).

(** [context.drawImage(source, sx, sy, sw, sh, dx, dy, dw, dh)]. *)
Definition drawImage (ua : UserAgent) (source : CanvasImageSource)
    (crop : CropRegion) (dest : Rect) (c : Context) : Context :=
  mkContext
    (imap (fun p d =>
       composite (globalCompositeOperation c) (resample ua source crop dest (Z.of_nat p)) d)
       (bitmap c))
    (fillStyle c) (globalCompositeOperation c).

(** [context.getImageData] of the whole frame: four bytes a pixel. *)
Definition getImageData (ua : UserAgent) (c : Context) : list Z :=
  flat_map (fun px =>
    let q := readPixel ua px in [red q; green q; blue q; alpha q]) (bitmap c).

(** [context.putImageData(imageData, 0, 0)] of a whole frame: every pixel
    is replaced, nothing is composited. *)
Definition putImageData (ua : UserAgent) (data : list Z) (c : Context) : Context :=
  mkContext
    (imap (fun p _ =>
       let i := (4 * Z.of_nat p)%Z in
       writePixel ua (mkRGBA (aget 0%Z data i) (aget 0%Z data (i + 1)%Z)
                             (aget 0%Z data (i + 2)%Z) (aget 0%Z data (i + 3)%Z)))
       (bitmap c))
    (fillStyle c) (globalCompositeOperation c).

(** ** The render call *)

(** The background gradient, from [settings.backgroundLift]. *)
Definition backgroundGradient (settings : EffectSettings) (height : R) : CanvasGradient :=
  let background := createLinearGradient 0 0 0 height in
  let lift := clamp (backgroundLift settings) 0 100 / 100 in
  let background :=
    addColorStop background 0 (mkColour 250 250 247 (85 / 100 + lift * (1 / 10))) in
  addColorStop background 1 (mkColour 242 242 236 (9 / 10 + lift * (8 / 100))).

(** The vignette overlay; skipped when the strength is not positive. *)
Definition drawVignette (ua : UserAgent) (settings : EffectSettings)
    (width height : R) (c : Context) : Context :=
  let vignetteStrength := clamp (vignette settings) 0 100 / 100 in
  if Rlt_dec 0 vignetteStrength
  then
    let gradient :=
      createRadialGradient (width / 2) (height * (55 / 100)) (width * (25 / 100))
        (width / 2) (height * (55 / 100)) (Rmax width height * (7 / 10)) in
    let gradient := addColorStop gradient 0 (mkColour 255 255 255 0) in
    let gradient :=
      addColorStop gradient 1 (mkColour 210 210 205 (35 / 100 * vignetteStrength)) in
    fillRect ua (mkRect 0 0 width height) (setFillStyle gradient c)
  else c.

(** The pedestal, its multiplied side shadow and the contact shadow. *)
Definition drawStand (ua : UserAgent) (settings : EffectSettings)
    (width height : R) (c : Context) : Context :=
  let depthStrength := depthStrengthOf settings in
  let standPercent := clamp (standHeight settings) 10 45 / 100 in
  let standHeight := height * standPercent in
  let standWidth := width * (36 / 100 + 8 / 100 * depthStrength) in
  let standX := width / 2 - standWidth / 2 in
  let standY := height - standHeight in
  let standGradient := createLinearGradient standX standY standX (standY + standHeight) in
  let standGradient := addColorStop standGradient 0 (mkColour 255 255 255 1) in
  let standGradient := addColorStop standGradient (1 / 2) (mkColour 243 243 241 1) in
  let standGradient := addColorStop standGradient 1 (mkColour 228 228 223 1) in
  let c := setFillStyle standGradient c in
  let c := fillRect ua (mkRect standX standY standWidth standHeight) c in
  let standShadow :=
    createLinearGradient standX standY (standX + standWidth) (standY + standHeight) in
  let standShadow := addColorStop standShadow 0 (mkColour 0 0 0 (12 / 100)) in
  let standShadow := addColorStop standShadow (25 / 100) (mkColour 0 0 0 (5 / 100)) in
  let standShadow := addColorStop standShadow (75 / 100) (mkColour 0 0 0 (2 / 100)) in
  let standShadow := addColorStop standShadow 1 (mkColour 0 0 0 (14 / 100)) in
  let c := setCompositeOperation Multiply c in
  let c := setFillStyle standShadow c in
  let c := fillRect ua (mkRect standX standY standWidth standHeight) c in
  let c := setCompositeOperation SourceOver c in
  let basePad := height * (4 / 100) in
  let baseShadow := createLinearGradient 0 (height - basePad) 0 height in
  let baseShadow := addColorStop baseShadow 0 (mkColour 0 0 0 (18 / 100)) in
  let baseShadow := addColorStop baseShadow (7 / 10) (mkColour 0 0 0 (5 / 100)) in
  let baseShadow := addColorStop baseShadow 1 (mkColour 0 0 0 0) in
  let c := setFillStyle baseShadow c in
  fillRect ua (mkRect 0 (height - basePad) width basePad) c.

(** The frame up to [getImageData]: cleared, filled with the background
    gradient, and the cropped source drawn over the whole of it. *)
Definition drawSourceFrame (ua : UserAgent) (source : CanvasImageSource)
    (settings : EffectSettings) (width height : Z) (context : Context) : Context :=
  let crop := cropToAspect source (IZR width / IZR height) (macroZoom settings) in
  let c := clearRect context in
  let c := setFillStyle (backgroundGradient settings (IZR height)) c in
  let c := fillRect ua (mkRect 0 0 (IZR width) (IZR height)) c in
  drawImage ua source crop (mkRect 0 0 (IZR width) (IZR height)) c.

(** [renderPlasterEffect] on a frame of [width] by [height] pixels;
    [context.save()] and [context.restore()] bracket the body, so the
    drawing state of the result is that of [context]. *)
Definition renderFrame (ua : UserAgent) (source : CanvasImageSource)
    (settings : EffectSettings) (width height : Z) (context : Context) : Context :=
  let c := drawSourceFrame ua source settings width height context in
  let data := getImageData ua c in
  let data := toneMapPass settings data width height in
  let c := putImageData ua data c in
  let c := drawVignette ua settings (IZR width) (IZR height) c in
  let c := drawStand ua settings (IZR width) (IZR height) c in
  mkContext (bitmap c) (fillStyle context) (globalCompositeOperation context).

Definition renderPlasterEffect (ua : UserAgent) (source : CanvasImageSource)
    (settings : EffectSettings) (context : Context) : Context :=
  renderFrame ua source settings OUTPUT_WIDTH OUTPUT_HEIGHT context.

(** The settings the page starts from. *)
Definition defaultSettings : EffectSettings :=
  mkSettings 62 8 68 40 32 48 72 18 24 36.

(** ** Notions the properties are stated in *)

(** [m] is the least sample of the field [a]. *)
Definition isMinimum (m : R) (a : list R) : Prop :=
  In m a /\ forall v, In v a -> m <= v.

(** [m] is the greatest sample of the field [a]. *)
Definition isMaximum (m : R) (a : list R) : Prop :=
  In m a /\ forall v, In v a -> v <= m.

(** All samples of [a] are equal. *)
Definition constantField (a : list R) : Prop :=
  forall u v, In u a -> In v a -> u = v.

(** The sample of a row-major field at column [x] of row [y]. *)
Definition sampleAt (map : list R) (width x y : Z) : R :=
  aget 0 map (y * width + x)%Z.

(** The standard 3x3 Sobel responses, as the specification words them:
    the horizontal kernel is the right column minus the left column and
    the vertical kernel the bottom row minus the top row, each weighted
    1, 2, 1. *)
Definition sobelGxSpec (map : list R) (width x y : Z) : R :=
  (sampleAt map width (x + 1) (y - 1) + 2 * sampleAt map width (x + 1) y
   + sampleAt map width (x + 1) (y + 1))
  - (sampleAt map width (x - 1) (y - 1) + 2 * sampleAt map width (x - 1) y
     + sampleAt map width (x - 1) (y + 1)).

Definition sobelGySpec (map : list R) (width x y : Z) : R :=
  (sampleAt map width (x - 1) (y + 1) + 2 * sampleAt map width x (y + 1)
   + sampleAt map width (x + 1) (y + 1))
  - (sampleAt map width (x - 1) (y - 1) + 2 * sampleAt map width x (y - 1)
     + sampleAt map width (x + 1) (y - 1)).

(** The total of a field: the sum over all its samples. *)
Definition fieldTotal (a : list R) : R :=
  fold_right Rplus 0 a.

(** The sum of [f] over the [n] integers from [lo] on. *)
Fixpoint sumZ (lo : Z) (n : nat) (f : Z -> R) : R :=
  match n with
  | O => 0
  | S n' => f lo + sumZ (lo + 1)%Z n' f
  end.




(** ** Parts of the render named for the properties below *)

(** The highlight branch of the tone-mapping loop: [if (value > 210)]. *)
Definition highlightStep (settings : EffectSettings) (value : R) : R :=
  if Rlt_dec 210 value
  then
    let boost := (value - 210) * (8 / 10) * sheenStrengthOf settings in
    clamp (softLight value (value + boost)) 0 255
  else value.

(** The shadow branch of the tone-mapping loop: [if (value < 80)]. *)
Definition shadowStep (settings : EffectSettings) (value : R) : R :=
  if Rlt_dec value 80
  then
    let liftShadows := (80 - value) * (6 / 10) * matteStrengthOf settings in
    clamp (value + liftShadows) 0 255
  else value.

(** The value of the tone-mapping loop before its two branches. *)
Definition baseTone (settings : EffectSettings) (smoothedV nDetail nSobel : R) : R :=
  let value := contrastTransform smoothedV (30 + depthStrengthOf settings * 90) in
  let value := clamp (value + luminosityShiftOf settings) 0 255 in
  let value := clamp (value + microTerm (detailStrengthOf settings) nDetail) 0 255 in
  clamp (value + contourTerm (depthStrengthOf settings) nSobel) 0 255.

(** The rectangle of the pedestal: [standX], [standY], [standWidth] and
    [standHeight] of the render. *)
Definition standRect (settings : EffectSettings) (width height : R) : Rect :=
  let depthStrength := depthStrengthOf settings in
  let standPercent := clamp (standHeight settings) 10 45 / 100 in
  let standHeight := height * standPercent in
  let standWidth := width * (36 / 100 + 8 / 100 * depthStrength) in
  let standX := width / 2 - standWidth / 2 in
  let standY := height - standHeight in
  mkRect standX standY standWidth standHeight.

(** Every setting replaced by the nearest value of the range its consumer
    clamps it to. *)
Definition clampSettings (s : EffectSettings) : EffectSettings :=
  mkSettings (clamp (depth s) 0 100) (clamp (luminosity s) (-50) 50)
    (clamp (sheen s) 0 100) (clamp (matte s) 0 100) (clamp (smoothness s) 0 100)
    (clamp (microDetail s) 0 100) (clamp (backgroundLift s) 0 100)
    (clamp (macroZoom s) 0 60) (clamp (standHeight s) 10 45) (clamp (vignette s) 0 100).

(** Every byte of an [ImageData] buffer lies in 0..255. *)
Definition byteFrame (data : list Z) : Prop :=
  forall i, (0 <= i < alen data)%Z -> (0 <= aget 0 data i <= 255)%Z.

(** Every sample of a field lies between [lo] and [hi]. *)
Definition fieldWithin (lo hi : R) (a : list R) : Prop :=
  forall i, (0 <= i < alen a)%Z -> lo <= aget 0 a i <= hi.

(** ** Crop planning in binary64 *)

(** [cropToAspect] once more, on the binary64 numbers the program computes
    with, for the one place where a property of the crop depends on
    rounding.  [Math.min] and [Math.max] on numbers that are not NaN. *)
Module Binary64.
Import PrimFloat.

Definition min64 (a b : float) : float :=
  if PrimFloat.ltb b a then b else a.

Definition max64 (a b : float) : float :=
  if PrimFloat.ltb a b then b else a.

Definition clamp64 (value min max : float) : float :=
  min64 max (max64 min value).

Record CropRegion64 : Type := mkCrop64 {
  offsetX64 : float;
  offsetY64 : float;
  cropWidth64 : float;
  cropHeight64 : float
}.

Definition cropToAspect64 (width height aspectRatio zoomFactor : float) : CropRegion64 :=
  let ratio := (width / height)%float in
  let cropWidth :=
    if PrimFloat.ltb aspectRatio ratio then (height * aspectRatio)%float else width in
  let cropHeight :=
    if PrimFloat.ltb aspectRatio ratio then height else (width / aspectRatio)%float in
  let zoom := (clamp64 zoomFactor 0 60 / 100 + 1)%float in
  let cropWidth := (cropWidth / zoom)%float in
  let cropHeight := (cropHeight / zoom)%float in
  let offsetX := ((width - cropWidth) / 2)%float in
  let offsetY := ((height - cropHeight) / 2)%float in
  mkCrop64 offsetX offsetY cropWidth cropHeight.

End Binary64.

(** ** The steps of the tone loop before its branches *)




(** ** A user agent seen at the top-left pixel *)




(** * Properties *)

(** ** Proof steps for unrolled loops *)

(** Closed integer sums left by unrolling a loop are evaluated. *)
Ltac norm_closed_Z :=
  repeat match goal with
  | |- context [(?a + ?b)%Z] =>
      let v := eval vm_compute in (a + b)%Z in
      lazymatch v with
      | Z0 => idtac | Zpos _ => idtac | Zneg _ => idtac
      end;
      progress change (a + b)%Z with v
  end.

Ltac norm_closed_Z_in H :=
  repeat match type of H with
  | context [(?a + ?b)%Z] =>
      let v := eval vm_compute in (a + b)%Z in
      lazymatch v with
      | Z0 => idtac | Zpos _ => idtac | Zneg _ => idtac
      end;
      progress change (a + b)%Z with v in H
  end.

(** Closed clamped coordinates left by unrolling a loop are evaluated. *)
Ltac norm_clamp :=
  repeat match goal with
  | |- context [clampZ ?a ?b ?c] =>
      let v := eval vm_compute in (clampZ a b c) in
      lazymatch v with
      | Z0 => idtac | Zpos _ => idtac | Zneg _ => idtac
      end;
      change (clampZ a b c) with v
  end.

(** ** Clamping and rounding *)

Lemma clamp_bounds (v lo hi : R) : lo <= hi -> lo <= clamp v lo hi <= hi.
Proof.
  intros Hle. unfold clamp, Rmin, Rmax.
  destruct (Rle_dec lo v); destruct (Rle_dec hi _); lra.
Qed.

Lemma clamp_id (v lo hi : R) : lo <= v <= hi -> clamp v lo hi = v.
Proof.
  intros Hv. unfold clamp, Rmin, Rmax.
  destruct (Rle_dec lo v); destruct (Rle_dec hi _); lra.
Qed.

Lemma clamp_mono (v1 v2 lo hi : R) : v1 <= v2 -> clamp v1 lo hi <= clamp v2 lo hi.
Proof.
  intros Hv. unfold clamp.
  apply Rle_min_compat_l. apply Rle_max_compat_l. exact Hv.
Qed.

Lemma clampZ_bounds (v lo hi : Z) : (lo <= hi -> lo <= clampZ v lo hi <= hi)%Z.
Proof. unfold clampZ. lia. Qed.

Lemma clampZ_id (v lo hi : Z) : (lo <= v <= hi -> clampZ v lo hi = v)%Z.
Proof. unfold clampZ. lia. Qed.

Lemma toUint8Clamp_bounds (x : R) : (0 <= toUint8Clamp x <= 255)%Z.
Proof.
  unfold toUint8Clamp.
  destruct (Rle_dec x 0) as [|Hpos]; [lia|].
  destruct (Rle_dec 255 x) as [|Hlt]; [lia|].
  pose proof (Zfloor_bound x) as [Hlo Hhi].
  assert (H0 : (0 <= Zfloor x)%Z) by (apply Zfloor_lub; simpl; lra).
  assert (H1 : (Zfloor x < 255)%Z) by (apply lt_IZR; lra).
  repeat match goal with |- context [if ?c then _ else _] => destruct c end; lia.
Qed.

Lemma Math_round_eq (x : R) (z : Z) :
  IZR z - 1 / 2 <= x < IZR z + 1 / 2 -> Math_round x = z.
Proof. intros Hx. unfold Math_round. apply Zfloor_eq. lra. Qed.

(** Halves round up, also below zero, as [Math.round] does. *)
Example Math_round_half_up : Math_round (5 / 2) = 3%Z /\ Math_round (- 5 / 2) = (-2)%Z.
Proof. split; apply Math_round_eq; simpl; lra. Qed.

(** The byte store rounds halves to the even neighbour and saturates. *)
Example toUint8Clamp_samples :
  toUint8Clamp (5 / 2) = 2%Z /\ toUint8Clamp (7 / 2) = 4%Z
  /\ toUint8Clamp 300 = 255%Z /\ toUint8Clamp (-3) = 0%Z.
Proof.
  assert (H2 : Zfloor (5 / 2) = 2%Z) by (apply Zfloor_eq; simpl; lra).
  assert (H3 : Zfloor (7 / 2) = 3%Z) by (apply Zfloor_eq; simpl; lra).
  unfold toUint8Clamp. rewrite H2, H3.
  repeat split;
    repeat match goal with
    | |- context [Rle_dec ?a ?b] => destruct (Rle_dec a b); try lra
    | |- context [Rlt_dec ?a ?b] => destruct (Rlt_dec a b); try (simpl in *; lra)
    end; reflexivity.
Qed.

(** ** Arrays *)

Lemma alen_aset {A : Type} (a : list A) (i : Z) (v : A) : alen (aset a i v) = alen a.
Proof.
  unfold alen, aset. destruct (i <? 0)%Z; [reflexivity|].
  now rewrite length_insert.
Qed.

Lemma aget_aset_eq {A : Type} (d : A) (a : list A) (i : Z) (v : A) :
  (0 <= i < alen a)%Z -> aget d (aset a i v) i = v.
Proof.
  unfold alen, aget, aset. intros Hi.
  destruct (Z.ltb_spec i 0); [lia|].
  rewrite list_lookup_insert_eq by lia. reflexivity.
Qed.

Lemma aget_aset_ne {A : Type} (d : A) (a : list A) (i j : Z) (v : A) :
  i <> j -> aget d (aset a i v) j = aget d a j.
Proof.
  unfold aget, aset. intros Hij.
  destruct (Z.ltb_spec i 0); [reflexivity|].
  destruct (Z.ltb_spec j 0); [reflexivity|].
  rewrite list_lookup_insert_ne by lia. reflexivity.
Qed.

Lemma alen_newArray (n : Z) : (0 <= n)%Z -> alen (newArray n) = n.
Proof. intros Hn. unfold alen, newArray. rewrite length_replicate. lia. Qed.

Lemma alen_newArray_alen {A : Type} (a : list A) : alen (newArray (alen a)) = alen a.
Proof. apply alen_newArray. unfold alen. lia. Qed.

Lemma aget_newArray (n i : Z) : aget 0 (newArray n) i = 0.
Proof.
  unfold aget, newArray. destruct (i <? 0)%Z; [reflexivity|].
  destruct (replicate (Z.to_nat n) 0 !! Z.to_nat i) as [v|] eqn:E; [|reflexivity].
  apply lookup_replicate in E. simpl. tauto.
Qed.

Lemma aget_in {A : Type} (d : A) (a : list A) (i : Z) :
  (0 <= i < alen a)%Z -> In (aget d a i) a.
Proof.
  unfold alen, aget. intros Hi.
  destruct (Z.ltb_spec i 0); [lia|].
  destruct (a !! Z.to_nat i) as [v|] eqn:E.
  - simpl. apply list_elem_of_In. eapply list_elem_of_lookup_2. exact E.
  - apply lookup_ge_None in E. lia.
Qed.

Lemma in_aget {A : Type} (d : A) (a : list A) (v : A) :
  In v a -> exists i, (0 <= i < alen a)%Z /\ aget d a i = v.
Proof.
  intros Hin. apply list_elem_of_In in Hin.
  apply list_elem_of_lookup_1 in Hin as [n Hn].
  exists (Z.of_nat n). pose proof (lookup_lt_Some _ _ _ Hn).
  unfold alen, aget. split; [lia|].
  destruct (Z.ltb_spec (Z.of_nat n) 0); [lia|].
  rewrite Nat2Z.id, Hn. reflexivity.
Qed.

(** Two arrays of one length that agree at every index are equal. *)
Lemma array_ext (a b : list R) :
  alen a = alen b ->
  (forall i, (0 <= i < alen a)%Z -> aget 0 a i = aget 0 b i) ->
  a = b.
Proof.
  unfold alen. intros Hlen Hget. apply list_eq. intros n.
  destruct (Nat.lt_ge_cases n (length a)) as [Hn|Hn].
  - specialize (Hget (Z.of_nat n)). unfold aget in Hget.
    destruct (Z.ltb_spec (Z.of_nat n) 0); [lia|].
    rewrite Nat2Z.id in Hget.
    destruct (lookup_lt_is_Some_2 a n Hn) as [x Hx].
    destruct (lookup_lt_is_Some_2 b n ltac:(lia)) as [y Hy].
    rewrite Hx, Hy in *. simpl in Hget. f_equal. apply Hget. lia.
  - rewrite (proj2 (lookup_ge_None a n)) by lia.
    rewrite (proj2 (lookup_ge_None b n)) by lia. reflexivity.
Qed.

(** ** Loops *)

(** The invariant rule of a counted loop, on the iteration number. *)
Lemma for_loop_inv {St : Type} (P : Z -> St -> Prop) (body : Z -> St -> St) (step : Z) :
  forall (n : nat) (lo : Z) (s : St),
    P 0%Z s ->
    (forall k s', (0 <= k < Z.of_nat n)%Z -> P k s' -> P (k + 1)%Z (body (lo + k * step)%Z s')) ->
    P (Z.of_nat n) (for_loop n lo step body s).
Proof.
  intros n. revert P. induction n as [|n IH]; intros P lo s H0 Hstep.
  - exact H0.
  - cbn [for_loop].
    replace (Z.of_nat (S n)) with (Z.of_nat n + 1)%Z by lia.
    apply (IH (fun k s' => P (k + 1)%Z s')).
    + replace lo with (lo + 0 * step)%Z at 1 by lia. apply Hstep; [lia|exact H0].
    + intros k s' Hk HP.
      replace (lo + step + k * step)%Z with (lo + (k + 1) * step)%Z by lia.
      apply Hstep; [lia|exact HP].
Qed.

(** The invariant rule of [for (i = lo; i < hi; i++)]. *)
Lemma for_range_inv {St : Type} (P : Z -> St -> Prop) (body : Z -> St -> St) (lo hi : Z) (s : St) :
  P lo s ->
  (forall i s', (lo <= i < hi)%Z -> P i s' -> P (i + 1)%Z (body i s')) ->
  P (Z.max lo hi) (for_range lo hi body s).
Proof.
  intros H0 Hstep. unfold for_range.
  replace (Z.max lo hi) with (lo + Z.of_nat (Z.to_nat (hi - lo)))%Z by lia.
  apply (for_loop_inv (fun k s' => P (lo + k)%Z s')).
  - now rewrite Z.add_0_r.
  - intros k s' Hk HP. rewrite Z.mul_1_r, Z.add_assoc.
    apply Hstep; [lia|exact HP].
Qed.

(** A loop of no iteration. *)
Lemma for_range_nil {St : Type} (body : Z -> St -> St) (lo hi : Z) (s : St) :
  (hi <= lo)%Z -> for_range lo hi body s = s.
Proof.
  intros H. unfold for_range. replace (Z.to_nat (hi - lo)) with O by lia. reflexivity.
Qed.

(** Peeling the first iteration. *)
Lemma for_range_first {St : Type} (body : Z -> St -> St) (lo hi : Z) (s : St) :
  (lo < hi)%Z -> for_range lo hi body s = for_range (lo + 1) hi body (body lo s).
Proof.
  intros H. unfold for_range.
  replace (Z.to_nat (hi - lo)) with (S (Z.to_nat (hi - (lo + 1)))) by lia.
  reflexivity.
Qed.

(** A loop that stores [f j] at index [g j], for [g] injective and in
    bounds on the range: what the array holds afterwards. *)
Lemma fill1_spec {A : Type} (d : A) (g : Z -> Z) (f : Z -> A) (a0 : list A) (lo hi : Z) :
  (forall j, (lo <= j < hi)%Z -> (0 <= g j < alen a0)%Z) ->
  (forall j j', (lo <= j < hi)%Z -> (lo <= j' < hi)%Z -> g j = g j' -> j = j') ->
  let res := for_range lo hi (fun j a => aset a (g j) (f j)) a0 in
  alen res = alen a0
  /\ (forall j, (lo <= j < hi)%Z -> aget d res (g j) = f j)
  /\ (forall p, (forall j, (lo <= j < hi)%Z -> g j <> p) -> aget d res p = aget d a0 p).
Proof.
  intros Hin Hinj res.
  pose (P := fun (i : Z) (a : list A) =>
    alen a = alen a0
    /\ (forall j, (lo <= j < i)%Z -> (j < hi)%Z -> aget d a (g j) = f j)
    /\ (forall p, (forall j, (lo <= j < i)%Z -> (j < hi)%Z -> g j <> p) ->
                  aget d a p = aget d a0 p)).
  assert (HP : P (Z.max lo hi) res).
  { apply (for_range_inv P).
    - split; [reflexivity|]. split; [intros; lia | intros; reflexivity].
    - intros i a Hi (Hlen & Hhit & Hmiss). split; [|split].
      + now rewrite alen_aset.
      + intros j Hj Hjhi. destruct (Z.eq_dec j i) as [->|Hne].
        * apply aget_aset_eq. rewrite Hlen. apply Hin. lia.
        * rewrite aget_aset_ne; [apply Hhit; lia|].
          intros Heq. apply Hne. symmetry. apply Hinj; [lia|lia|exact Heq].
      + intros p Hp. rewrite aget_aset_ne; [|apply Hp; lia].
        apply Hmiss. intros j Hj Hjhi. apply Hp; lia. }
  destruct HP as (Hlen & Hhit & Hmiss). split; [|split].
  - exact Hlen.
  - intros j Hj. apply Hhit; lia.
  - intros p Hp. apply Hmiss. intros j Hj Hjhi. apply Hp. lia.
Qed.

(** The same for two nested loops. *)
Lemma fill2_spec {A : Type} (d : A) (idx : Z -> Z -> Z) (f : Z -> Z -> A)
    (a0 : list A) (i0 i1 j0 j1 : Z) :
  (forall i j, (i0 <= i < i1)%Z -> (j0 <= j < j1)%Z -> (0 <= idx i j < alen a0)%Z) ->
  (forall i j i' j', (i0 <= i < i1)%Z -> (j0 <= j < j1)%Z ->
                     (i0 <= i' < i1)%Z -> (j0 <= j' < j1)%Z ->
                     idx i j = idx i' j' -> i = i' /\ j = j') ->
  let res := for_range i0 i1 (fun i a =>
               for_range j0 j1 (fun j a => aset a (idx i j) (f i j)) a) a0 in
  alen res = alen a0
  /\ (forall i j, (i0 <= i < i1)%Z -> (j0 <= j < j1)%Z -> aget d res (idx i j) = f i j)
  /\ (forall p, (forall i j, (i0 <= i < i1)%Z -> (j0 <= j < j1)%Z -> idx i j <> p) ->
                aget d res p = aget d a0 p).
Proof.
  intros Hin Hinj res.
  pose (P := fun (k : Z) (a : list A) =>
    alen a = alen a0
    /\ (forall i j, (i0 <= i < k)%Z -> (i < i1)%Z -> (j0 <= j < j1)%Z ->
                    aget d a (idx i j) = f i j)
    /\ (forall p, (forall i j, (i0 <= i < k)%Z -> (i < i1)%Z -> (j0 <= j < j1)%Z ->
                               idx i j <> p) ->
                  aget d a p = aget d a0 p)).
  assert (HP : P (Z.max i0 i1) res).
  { apply (for_range_inv P).
    - split; [reflexivity|]. split; [intros; lia | intros; reflexivity].
    - intros i a Hi (Hlen & Hhit & Hmiss).
      destruct (fill1_spec d (idx i) (f i) a j0 j1) as (Hlen' & Hhit' & Hmiss').
      { intros j Hj. rewrite Hlen. apply Hin; [lia|exact Hj]. }
      { intros j j' Hj Hj' Heq. apply (Hinj i j i j'); auto; lia. }
      split; [|split].
      + now rewrite Hlen'.
      + intros i' j Hi' Hi'' Hj. destruct (Z.eq_dec i' i) as [->|Hne].
        * apply Hhit'. exact Hj.
        * rewrite Hmiss'; [apply Hhit; lia|].
          intros j' Hj' Heq. apply Hne.
          destruct (Hinj i j' i' j) as [E _]; auto; lia.
      + intros p Hp. rewrite Hmiss'; [|intros j Hj; apply Hp; lia].
        apply Hmiss. intros i' j Hi' Hi'' Hj. apply Hp; lia. }
  destruct HP as (Hlen & Hhit & Hmiss). split; [|split].
  - exact Hlen.
  - intros i j Hi Hj. apply Hhit; lia.
  - intros p Hp. apply Hmiss. intros i j Hi Hi' Hj. apply Hp; lia.
Qed.

(** Row-major indices of a [width] by [height] grid are in bounds and
    determine their coordinates. *)
Lemma grid_index_bounds (width height x y : Z) :
  (0 <= x < width)%Z -> (0 <= y < height)%Z ->
  (0 <= y * width + x < width * height)%Z.
Proof. intros Hx Hy. nia. Qed.

Lemma grid_index_inj (width x y x' y' : Z) :
  (0 <= x < width)%Z -> (0 <= x' < width)%Z ->
  (y * width + x = y' * width + x')%Z -> y = y' /\ x = x'.
Proof.
  intros Hx Hx' Heq.
  assert (y = y') by nia. subst. lia.
Qed.

(** ** The tone curve *)

Lemma contrast_factor_pos (c : R) :
  -255 < c < 259 -> 0 < (259 * (c + 255)) / (255 * (259 - c)).
Proof. intros Hc. apply Rdiv_lt_0_compat; lra. Qed.

Lemma strength_unit (v : R) : 0 <= clamp v 0 100 / 100 <= 1.
Proof. pose proof (clamp_bounds v 0 100). lra. Qed.

(** The contrast parameter the render passes lies between 30 and 120. *)
Lemma contrast_parameter_range (settings : EffectSettings) :
  30 <= 30 + depthStrengthOf settings * 90 <= 120.
Proof. pose proof (strength_unit (depth settings)). unfold depthStrengthOf. lra. Qed.

(** C5: for a contrast parameter between 30 and 120, [contrastTransform] is
    monotonically non-decreasing in its input value. *)
Theorem contrastTransform_monotone (c v1 v2 : R) :
  30 <= c <= 120 -> v1 <= v2 ->
  contrastTransform v1 c <= contrastTransform v2 c.
Proof.
  intros Hc Hv. unfold contrastTransform.
  apply clamp_mono.
  pose proof (contrast_factor_pos c ltac:(lra)) as Hf.
  set (factor := 259 * (c + 255) / (255 * (259 - c))) in *.
  nra.
Qed.

Lemma contrastTransform_monotone_witness :
  30 <= 30 <= 120 /\ 0 <= 1 /\ contrastTransform 0 30 <= contrastTransform 1 30.
Proof.
  split; [lra|]. split; [lra|].
  apply (contrastTransform_monotone 30 0 1); lra.
Defined.

(** C6: at the blend value one half the two arms of the soft-light
    conditional agree, both giving back the base value; [softLight] itself,
    which takes the second arm there, returns its base. *)
Theorem softLight_branches_agree_at_half (b : R) :
  0 <= b <= 1 ->
  softLight_low b (1 / 2) = b
  /\ softLight_high b (1 / 2) = b
  /\ softLight (b * 255) (255 / 2) = b * 255.
Proof.
  intros Hb. split; [|split].
  - unfold softLight_low. lra.
  - unfold softLight_high. lra.
  - unfold softLight.
    replace (b * 255 / 255) with b by lra.
    replace (255 / 2 / 255) with (1 / 2) by lra.
    destruct (Rlt_dec (1 / 2) (1 / 2)) as [Habs|_]; [lra|].
    unfold softLight_high.
    replace (2 * b * (1 - 1 / 2) + sqrt b * (2 * (1 / 2) - 1)) with b by lra.
    apply clamp_id. lra.
Qed.

Lemma softLight_branches_agree_at_half_witness :
  0 <= 1 / 4 <= 1
  /\ softLight_low (1 / 4) (1 / 2) = 1 / 4
  /\ softLight_high (1 / 4) (1 / 2) = 1 / 4
  /\ softLight (1 / 4 * 255) (255 / 2) = 1 / 4 * 255.
Proof.
  split; [lra|].
  apply (softLight_branches_agree_at_half (1 / 4)); lra.
Defined.

(** ** The blur radius *)

Lemma Math_round_bounds (x : R) (lo hi : Z) :
  IZR lo - 1 / 2 <= x -> x < IZR hi + 1 / 2 -> (lo <= Math_round x <= hi)%Z.
Proof.
  intros Hlo Hhi. unfold Math_round.
  pose proof (Zfloor_bound (x + 1 / 2)) as [Hf _].
  split.
  - apply Zfloor_lub. lra.
  - apply Z.lt_succ_r. apply lt_IZR. rewrite succ_IZR. lra.
Qed.

Lemma gaussianBlur_radius_nonpos (source : list R) (width height radius : Z) :
  (radius <= 0)%Z -> gaussianBlur source width height radius = source.
Proof.
  intros Hr. unfold gaussianBlur.
  destruct (Z.leb_spec radius 0); [reflexivity|lia].
Qed.

(** C7: [gaussianBlur] with radius 0 returns its input unchanged, and the
    radius the render derives from the smoothness setting lies in 0..6. *)
Theorem gaussianBlur_zero_identity_and_radius_range
    (source : list R) (width height : Z) (settings : EffectSettings) :
  gaussianBlur source width height 0 = source
  /\ (0 <= blurRadiusOf settings <= 6)%Z
  /\ blurRadiusOf settings = Math_round (clamp (smoothness settings) 0 100 / 18).
Proof.
  split; [|split].
  - apply gaussianBlur_radius_nonpos. lia.
  - unfold blurRadiusOf.
    pose proof (clamp_bounds (smoothness settings) 0 100 ltac:(lra)).
    apply Math_round_bounds; simpl; lra.
  - reflexivity.
Qed.

(** Both ends of the range are reached, and the default smoothness of 32
    gives radius 2. *)
Example blurRadiusOf_samples :
  blurRadiusOf (mkSettings 62 8 68 40 0 48 72 18 24 36) = 0%Z
  /\ blurRadiusOf (mkSettings 62 8 68 40 100 48 72 18 24 36) = 6%Z
  /\ blurRadiusOf defaultSettings = 2%Z.
Proof.
  unfold blurRadiusOf, defaultSettings. cbn [smoothness].
  rewrite !clamp_id by lra.
  repeat split; apply Math_round_eq; simpl; lra.
Qed.

(** ** Crop planning *)

Lemma zoom_range (zoomFactor : R) : 1 <= clamp zoomFactor 0 60 / 100 + 1 <= 16 / 10.
Proof. pose proof (clamp_bounds zoomFactor 0 60). lra. Qed.

(** One axis of the crop: a side [c] no longer than the source's, divided
    by a zoom of at least one and centred, stays inside the source. *)
Lemma crop_axis_bounds (full c zoom : R) :
  0 < c <= full -> 1 <= zoom ->
  0 <= (full - c / zoom) / 2
  /\ 0 < c / zoom
  /\ (full - c / zoom) / 2 + c / zoom <= full.
Proof.
  intros Hc Hz.
  assert (Hiz : 0 < / zoom <= 1).
  { split; [apply Rinv_0_lt_compat; lra|].
    rewrite <- Rinv_1. apply Rinv_le_contravar; lra. }
  unfold Rdiv.
  assert (0 < c * / zoom) by nra.
  assert (c * / zoom <= c) by nra.
  lra.
Qed.


(** C4, amended: for a source of positive width and height and a positive
    target aspect ratio, [cropToAspect] returns a rectangle inside the
    source; a source wider than the target keeps its height and loses
    width before the zoom, a narrower one keeps its width and loses
    height.  Over exact arithmetic the width over the height of the
    rectangle is the target ratio; the program divides in binary64, where
    the quotient can miss the target in the last place. *)
Theorem cropToAspect_within_source_and_aspect
    (source : CanvasImageSource) (aspectRatio zoomFactor : R) :
  0 < sourceWidth source -> 0 < sourceHeight source -> 0 < aspectRatio ->
  let crop := cropToAspect source aspectRatio zoomFactor in
  (0 <= offsetX crop /\ 0 <= offsetY crop
   /\ 0 < cropWidth crop /\ 0 < cropHeight crop
   /\ offsetX crop + cropWidth crop <= sourceWidth source
   /\ offsetY crop + cropHeight crop <= sourceHeight source)
  /\ cropWidth crop / cropHeight crop = aspectRatio
  /\ (aspectRatio < sourceWidth source / sourceHeight source ->
      snd (cropBeforeZoom source aspectRatio) = sourceHeight source
      /\ fst (cropBeforeZoom source aspectRatio) < sourceWidth source)
  /\ (sourceWidth source / sourceHeight source < aspectRatio ->
      fst (cropBeforeZoom source aspectRatio) = sourceWidth source
      /\ snd (cropBeforeZoom source aspectRatio) < sourceHeight source).
Proof.
  intros Hw Hh Ha crop. subst crop. unfold cropToAspect, cropBeforeZoom.
  pose proof (zoom_range zoomFactor) as Hz.
  set (zoom := clamp zoomFactor 0 60 / 100 + 1) in *.
  set (W := sourceWidth source) in *. set (H := sourceHeight source) in *.
  assert (Hratio : W / H * H = W) by (field; lra).
  assert (Hinv : W / aspectRatio * aspectRatio = W) by (field; lra).
  destruct (Rlt_dec aspectRatio (W / H)) as [Hwide|Hnarrow];
    cbn [fst snd offsetX offsetY cropWidth cropHeight].
  - assert (Hcw : H * aspectRatio < W) by nra.
    assert (Hcw0 : 0 < H * aspectRatio) by nra.
    destruct (crop_axis_bounds W (H * aspectRatio) zoom) as (Hx0 & Hx1 & Hx2); [lra|lra|].
    destruct (crop_axis_bounds H H zoom) as (Hy0 & Hy1 & Hy2); [lra|lra|].
    split; [tauto|]. split; [field; lra|]. split.
    + intros _. split; [reflexivity|exact Hcw].
    + intros Hlt. lra.
  - assert (Hle : W <= aspectRatio * H) by nra.
    assert (Hch : 0 < W / aspectRatio) by (apply Rdiv_lt_0_compat; lra).
    assert (Hch' : W / aspectRatio <= H) by nra.
    destruct (crop_axis_bounds W W zoom) as (Hx0 & Hx1 & Hx2); [lra|lra|].
    destruct (crop_axis_bounds H (W / aspectRatio) zoom) as (Hy0 & Hy1 & Hy2); [lra|lra|].
    split; [tauto|]. split; [field; lra|]. split.
    + intros Hgt. lra.
    + intros Hlt. split; [reflexivity|].
      assert (W < aspectRatio * H) by nra. nra.
Qed.

(** ** The crop in the arithmetic of the program *)

Section Binary64Facts.
Import PrimFloat Binary64.

(** C4, as the specification states it, fails in the arithmetic of the
    program: for a 1600 by 1200 source, the aspect ratio 900 / 1200 of the
    render and the default zoom of 18, the returned width divided by the
    returned height is not 0.75 but the binary64 number just below it. *)
Lemma cropToAspect64_ratio_not_exact :
  let crop := cropToAspect64 1600 1200 (900 / 1200) 18 in
  PrimFloat.eqb (900 / 1200) 0.75 = true
  /\ PrimFloat.eqb (cropWidth64 crop / cropHeight64 crop) 0.75 = false
  /\ PrimFloat.ltb (cropWidth64 crop / cropHeight64 crop) 0.75 = true
  /\ PrimFloat.eqb (cropWidth64 crop / cropHeight64 crop) 0x1.7ffffffffffffp-1 = true.
Proof. repeat split; vm_compute; reflexivity. Qed.

End Binary64Facts.

Lemma cropToAspect_within_source_and_aspect_witness :
  let source := mkSource (Some 1600%Z) (Some 1200%Z) [] in
  let crop := cropToAspect source (3 / 4) 18 in
  (0 <= offsetX crop /\ 0 <= offsetY crop
   /\ 0 < cropWidth crop /\ 0 < cropHeight crop
   /\ offsetX crop + cropWidth crop <= sourceWidth source
   /\ offsetY crop + cropHeight crop <= sourceHeight source)
  /\ cropWidth crop / cropHeight crop = 3 / 4.
Proof.
  intros source crop.
  assert (Hw : 0 < sourceWidth source)
    by (unfold source, sourceWidth; cbn [src_width]; lra).
  assert (Hh : 0 < sourceHeight source)
    by (unfold source, sourceHeight; cbn [src_height]; lra).
  assert (Ha : 0 < 3 / 4) by lra.
  destruct (cropToAspect_within_source_and_aspect source (3 / 4) 18 Hw Hh Ha)
    as (Hin & Hasp & _).
  split; [exact Hin|exact Hasp].
Defined.

(** ** Normalisation *)

Lemma div_unit (a b : R) : 0 <= a <= b -> 0 < b -> 0 <= a / b <= 1.
Proof.
  intros Ha Hb.
  assert (Hib : 0 < / b) by (apply Rinv_0_lt_compat; exact Hb).
  assert (Hbb : b * / b = 1) by (apply Rinv_r; lra).
  unfold Rdiv. split; nra.
Qed.

(** What the scan of a non-empty field returns: its least and greatest
    samples, both finite. *)
Lemma scanMinMax_spec (source : list R) :
  source <> [] ->
  exists mn mx,
    scanMinMax source = (Fin mn, Fin mx)
    /\ (forall i, (0 <= i < alen source)%Z -> mn <= aget 0 source i <= mx)
    /\ (exists i, (0 <= i < alen source)%Z /\ aget 0 source i = mn)
    /\ (exists i, (0 <= i < alen source)%Z /\ aget 0 source i = mx).
Proof.
  intros Hne.
  assert (Hlen : (0 < alen source)%Z).
  { unfold alen. destruct source; [congruence|simpl; lia]. }
  pose (P := fun (k : Z) (st : xnum * xnum) =>
    (k = 0%Z /\ st = (PosInf, NegInf))
    \/ ((0 < k)%Z /\ exists mn mx,
          st = (Fin mn, Fin mx)
          /\ (forall i, (0 <= i < k)%Z -> mn <= aget 0 source i <= mx)
          /\ (exists i, (0 <= i < k)%Z /\ aget 0 source i = mn)
          /\ (exists i, (0 <= i < k)%Z /\ aget 0 source i = mx))).
  assert (HP : P (Z.max 0 (alen source)) (scanMinMax source)).
  { unfold scanMinMax. apply (for_range_inv P).
    - left. split; reflexivity.
    - intros i st Hi [[-> ->]|(Hk & mn & mx & -> & Hall & (imn & Himn & Emn) & (imx & Himx & Emx))];
        right; (split; [lia|]); cbn [fst snd below above].
      + exists (aget 0 source 0), (aget 0 source 0). split; [reflexivity|].
        split; [intros j Hj; replace j with 0%Z by lia; lra|].
        split; exists 0%Z; (split; [lia|reflexivity]).
      + set (v := aget 0 source i).
        destruct (Rlt_dec v mn) as [Hlt|Hge]; destruct (Rlt_dec mx v) as [Hgt|Hle];
          eexists; eexists; (split; [reflexivity|]).
        * specialize (Hall imn Himn). lra.
        * split; [|split].
          -- intros j Hj. destruct (Z.eq_dec j i) as [->|Hn]; [fold v; lra|].
             specialize (Hall j ltac:(lia)). lra.
          -- exists i. split; [lia|reflexivity].
          -- exists imx. split; [lia|exact Emx].
        * split; [|split].
          -- intros j Hj. destruct (Z.eq_dec j i) as [->|Hn]; [fold v; lra|].
             specialize (Hall j ltac:(lia)). lra.
          -- exists imn. split; [lia|exact Emn].
          -- exists i. split; [lia|reflexivity].
        * split; [|split].
          -- intros j Hj. destruct (Z.eq_dec j i) as [->|Hn]; [fold v; lra|].
             specialize (Hall j ltac:(lia)). lra.
          -- exists imn. split; [lia|exact Emn].
          -- exists imx. split; [lia|exact Emx]. }
  replace (Z.max 0 (alen source)) with (alen source) in HP by lia.
  destruct HP as [[Hk _]|(_ & mn & mx & HP)]; [lia|].
  exists mn, mx. exact HP.
Qed.

(** [normaliseArray] sample by sample, on a non-empty field. *)
Lemma normaliseArray_spec (source : list R) :
  source <> [] ->
  exists mn mx,
    (forall i, (0 <= i < alen source)%Z -> mn <= aget 0 source i <= mx)
    /\ (exists i, (0 <= i < alen source)%Z /\ aget 0 source i = mn)
    /\ (exists i, (0 <= i < alen source)%Z /\ aget 0 source i = mx)
    /\ alen (normaliseArray source) = alen source
    /\ (forall i, (0 <= i < alen source)%Z ->
          aget 0 (normaliseArray source) i = (aget 0 source i - mn) / rangeOf mn mx).
Proof.
  intros Hne.
  destruct (scanMinMax_spec source Hne) as (mn & mx & Hscan & Hall & Hmn & Hmx).
  exists mn, mx. unfold normaliseArray. rewrite Hscan.
  destruct (fill1_spec 0 (fun i => i)
              (fun i => (aget 0 source i - mn) / rangeOf mn mx)
              (newArray (alen source)) 0 (alen source)) as (Hlen & Hhit & _).
  { intros j Hj. now rewrite alen_newArray_alen. }
  { intros j j' _ _ E. exact E. }
  rewrite alen_newArray_alen in Hlen.
  repeat (split; [assumption|]). exact Hhit.
Qed.

Lemma normaliseArray_length (source : list R) :
  alen (normaliseArray source) = alen source.
Proof.
  destruct source as [|v source'] eqn:E.
  - reflexivity.
  - destruct (normaliseArray_spec (v :: source')) as (mn & mx & _ & _ & _ & Hlen & _);
      [congruence|exact Hlen].
Qed.

(** Every sample of a normalised field lies in the unit interval. *)
Lemma normaliseArray_unit (source : list R) (i : Z) :
  0 <= aget 0 (normaliseArray source) i <= 1.
Proof.
  destruct source as [|v source'] eqn:E.
  - unfold normaliseArray. simpl. rewrite aget_newArray. lra.
  - rewrite <- E.
    assert (Hne : source <> []) by (rewrite E; congruence).
    destruct (normaliseArray_spec source Hne) as (mn & mx & Hall & _ & _ & Hlen & Hget).
    destruct (Z_lt_ge_dec i 0) as [Hneg|Hpos].
    { unfold aget. destruct (Z.ltb_spec i 0); [lra|lia]. }
    destruct (Z_lt_ge_dec i (alen source)) as [Hin|Hout].
    + rewrite Hget by lia. specialize (Hall i ltac:(lia)).
      unfold rangeOf. destruct (Req_dec_T (mx - mn) 0) as [Hz|Hnz].
      * replace (aget 0 source i) with mn by lra. lra.
      * assert (0 < mx - mn) by lra.
        apply div_unit; lra.
    + unfold aget. destruct (Z.ltb_spec i 0); [lra|].
      rewrite (proj2 (lookup_ge_None _ _)); [simpl; lra|].
      unfold alen in *. lia.
Qed.

(** A non-empty field is constant exactly when its extremes coincide. *)
Lemma constantField_extremes (source : list R) (mn mx : R) :
  (forall i, (0 <= i < alen source)%Z -> mn <= aget 0 source i <= mx) ->
  (exists i, (0 <= i < alen source)%Z /\ aget 0 source i = mn) ->
  (exists i, (0 <= i < alen source)%Z /\ aget 0 source i = mx) ->
  constantField source <-> mx - mn = 0.
Proof.
  intros Hall (imn & Himn & Emn) (imx & Himx & Emx). split.
  - intros Hc. rewrite <- Emn, <- Emx.
    rewrite (Hc (aget 0 source imx) (aget 0 source imn)); [lra| |]; now apply aget_in.
  - intros Heq u v Hu Hv.
    apply (in_aget 0) in Hu as (iu & Hiu & <-).
    apply (in_aget 0) in Hv as (iv & Hiv & <-).
    pose proof (Hall iu Hiu). pose proof (Hall iv Hiv). lra.
Qed.

(** C3: on a non-empty field, [normaliseArray] returns the all-zero field
    when the input is constant, and otherwise a field whose minimum is 0
    and whose maximum is 1. *)
Theorem normaliseArray_min_zero_max_one (source : list R) :
  source <> [] ->
  (constantField source -> forall v, In v (normaliseArray source) -> v = 0)
  /\ (~ constantField source ->
      isMinimum 0 (normaliseArray source) /\ isMaximum 1 (normaliseArray source)).
Proof.
  intros Hne.
  destruct (normaliseArray_spec source Hne)
    as (mn & mx & Hall & Hmn & Hmx & Hlen & Hget).
  pose proof (constantField_extremes source mn mx Hall Hmn Hmx) as Hconst.
  split.
  - intros Hc v Hv. apply (in_aget 0) in Hv as (i & Hi & <-).
    rewrite Hlen in Hi. rewrite Hget by exact Hi.
    pose proof (proj1 Hconst Hc) as Hz. specialize (Hall i Hi).
    unfold rangeOf. destruct (Req_dec_T (mx - mn) 0) as [_|Hnz]; [|exact (False_ind _ (Hnz Hz))].
    replace (aget 0 source i) with mn by lra. lra.
  - intros Hnc.
    assert (Hnz : mx - mn <> 0) by (intros E; exact (Hnc (proj2 Hconst E))).
    destruct Hmn as (imn & Himn & Emn). destruct Hmx as (imx & Himx & Emx).
    assert (Hpos : 0 < mx - mn) by (specialize (Hall imn Himn); lra).
    assert (Hrange : rangeOf mn mx = mx - mn).
    { unfold rangeOf. destruct (Req_dec_T (mx - mn) 0); [contradiction|reflexivity]. }
    split; split.
    + replace 0 with (aget 0 (normaliseArray source) imn).
      * apply aget_in. now rewrite Hlen.
      * rewrite Hget, Emn by exact Himn. lra.
    + intros v Hv. apply (in_aget 0) in Hv as (i & Hi & <-).
      rewrite Hlen in Hi. rewrite Hget, Hrange by exact Hi.
      specialize (Hall i Hi). apply div_unit; lra.
    + replace 1 with (aget 0 (normaliseArray source) imx).
      * apply aget_in. now rewrite Hlen.
      * rewrite Hget, Emx, Hrange by exact Himx. field. lra.
    + intros v Hv. apply (in_aget 0) in Hv as (i & Hi & <-).
      rewrite Hlen in Hi. rewrite Hget, Hrange by exact Hi.
      specialize (Hall i Hi). apply div_unit; lra.
Qed.

Lemma normaliseArray_min_zero_max_one_witness :
  [2; 4] <> []
  /\ isMinimum 0 (normaliseArray [2; 4]) /\ isMaximum 1 (normaliseArray [2; 4]).
Proof.
  assert (Hne : [2; 4] <> ([] : list R)) by discriminate.
  split; [exact Hne|].
  apply (normaliseArray_min_zero_max_one [2; 4] Hne).
  intros Hc.
  specialize (Hc 2 4 (or_introl eq_refl) (or_intror (or_introl eq_refl))). lra.
Defined.

(** ** Sobel *)

Lemma kernel_entries :
  (aget 0 kernelX 0 = -1 /\ aget 0 kernelX 1 = 0 /\ aget 0 kernelX 2 = 1
   /\ aget 0 kernelX 3 = -2 /\ aget 0 kernelX 4 = 0 /\ aget 0 kernelX 5 = 2
   /\ aget 0 kernelX 6 = -1 /\ aget 0 kernelX 7 = 0 /\ aget 0 kernelX 8 = 1)
  /\ (aget 0 kernelY 0 = -1 /\ aget 0 kernelY 1 = -2 /\ aget 0 kernelY 2 = -1
      /\ aget 0 kernelY 3 = 0 /\ aget 0 kernelY 4 = 0 /\ aget 0 kernelY 5 = 0
      /\ aget 0 kernelY 6 = 1 /\ aget 0 kernelY 7 = 2 /\ aget 0 kernelY 8 = 1).
Proof. repeat split; reflexivity. Qed.

(** The nine iterations of the two inner loops compute the standard
    responses. *)
Lemma sobelGradient_spec (map : list R) (width x y : Z) :
  gx (sobelGradient map width x y) = sobelGxSpec map width x y
  /\ gy (sobelGradient map width x y) = sobelGySpec map width x y.
Proof.
  destruct kernel_entries as ((X0 & X1 & X2 & X3 & X4 & X5 & X6 & X7 & X8)
                              & (Y0 & Y1 & Y2 & Y3 & Y4 & Y5 & Y6 & Y7 & Y8)).
  unfold sobelGradient, for_range.
  change (Z.to_nat (2 - -1)) with 3%nat.
  cbn [for_loop sobelStep gx gy kidx].
  norm_closed_Z.
  rewrite X0, X1, X2, X3, X4, X5, X6, X7, X8, Y0, Y1, Y2, Y3, Y4, Y5, Y6, Y7, Y8.
  unfold sobelGxSpec, sobelGySpec, sampleAt.
  replace (y + -1)%Z with (y - 1)%Z by lia.
  replace (x + -1)%Z with (x - 1)%Z by lia.
  rewrite !Z.add_0_r.
  split; ring.
Qed.

(** [applySobel] sample by sample: the magnitude inside, the initial zero
    on the border. *)
Lemma applySobel_spec (map : list R) (width height : Z) :
  alen map = (width * height)%Z ->
  alen (applySobel map width height) = alen map
  /\ (forall x y, (1 <= x < width - 1)%Z -> (1 <= y < height - 1)%Z ->
        sampleAt (applySobel map width height) width x y = sobelMagnitude map width x y)
  /\ (forall x y, (0 <= x < width)%Z -> (0 <= y < height)%Z ->
        (x = 0 \/ x = width - 1 \/ y = 0 \/ y = height - 1)%Z ->
        sampleAt (applySobel map width height) width x y = 0).
Proof.
  intros Hlen. unfold applySobel, sampleAt.
  destruct (fill2_spec 0 (fun y x => (y * width + x)%Z)
              (fun y x => sobelMagnitude map width x y)
              (newArray (alen map)) 1 (height - 1) 1 (width - 1))
    as (Hl & Hhit & Hmiss).
  { intros y x Hy Hx. rewrite alen_newArray_alen, Hlen.
    apply grid_index_bounds; lia. }
  { intros y x y' x' Hy Hx Hy' Hx' E. apply (grid_index_inj width); [lia|lia|exact E]. }
  rewrite alen_newArray_alen in Hl.
  split; [exact Hl|]. split.
  - intros x y Hx Hy. apply Hhit; assumption.
  - intros x y Hx Hy Hborder. rewrite Hmiss; [apply aget_newArray|].
    intros y' x' Hy' Hx' E.
    apply (grid_index_inj width) in E as [-> ->]; lia.
Qed.

(** C8: on a field of [width * height] samples, [applySobel] leaves the
    one-pixel border at zero, gives every interior pixel the magnitude
    [sqrt (gx^2 + gy^2)] of the two standard 3x3 Sobel responses, and gives
    zero at every interior pixel of a constant field. *)
Theorem applySobel_border_zero_and_uniform_zero (map : list R) (width height : Z) :
  alen map = (width * height)%Z ->
  (forall x y, (0 <= x < width)%Z -> (0 <= y < height)%Z ->
     (x = 0 \/ x = width - 1 \/ y = 0 \/ y = height - 1)%Z ->
     sampleAt (applySobel map width height) width x y = 0)
  /\ (forall x y, (1 <= x < width - 1)%Z -> (1 <= y < height - 1)%Z ->
       sampleAt (applySobel map width height) width x y
       = sqrt (sobelGxSpec map width x y * sobelGxSpec map width x y
               + sobelGySpec map width x y * sobelGySpec map width x y))
  /\ (constantField map ->
      forall x y, (1 <= x < width - 1)%Z -> (1 <= y < height - 1)%Z ->
        sampleAt (applySobel map width height) width x y = 0).
Proof.
  intros Hlen.
  destruct (applySobel_spec map width height Hlen) as (_ & Hin & Hborder).
  assert (Hmag : forall x y, (1 <= x < width - 1)%Z -> (1 <= y < height - 1)%Z ->
     sampleAt (applySobel map width height) width x y
     = sqrt (sobelGxSpec map width x y * sobelGxSpec map width x y
             + sobelGySpec map width x y * sobelGySpec map width x y)).
  { intros x y Hx Hy. rewrite Hin by assumption.
    unfold sobelMagnitude.
    destruct (sobelGradient_spec map width x y) as [-> ->]. reflexivity. }
  split; [exact Hborder|]. split; [exact Hmag|].
  intros Hconst x y Hx Hy. rewrite Hmag by assumption.
  assert (Hsame : forall x' y', (x - 1 <= x' <= x + 1)%Z -> (y - 1 <= y' <= y + 1)%Z ->
            sampleAt map width x' y' = sampleAt map width x y).
  { intros x' y' Hx' Hy'. unfold sampleAt.
    apply Hconst; apply aget_in; rewrite Hlen; apply grid_index_bounds; lia. }
  unfold sobelGxSpec, sobelGySpec.
  rewrite (Hsame (x + 1) (y - 1))%Z, (Hsame (x + 1) y)%Z, (Hsame (x + 1) (y + 1))%Z,
    (Hsame (x - 1) (y - 1))%Z, (Hsame (x - 1) y)%Z, (Hsame (x - 1) (y + 1))%Z,
    (Hsame x (y + 1))%Z, (Hsame x (y - 1))%Z by lia.
  match goal with |- sqrt ?e = 0 => replace e with 0 by ring end.
  apply sqrt_0.
Qed.

Lemma applySobel_border_zero_and_uniform_zero_witness :
  let map := [5; 5; 5; 5; 5; 5; 5; 5; 5] in
  alen map = (3 * 3)%Z
  /\ sampleAt (applySobel map 3 3) 3 0 2 = 0
  /\ sampleAt (applySobel map 3 3) 3 1 1 = 0.
Proof.
  intros map.
  assert (Hlen : alen map = (3 * 3)%Z) by reflexivity.
  destruct (applySobel_border_zero_and_uniform_zero map 3 3 Hlen) as (Hb & _ & Hu).
  split; [exact Hlen|]. split.
  - apply Hb; lia.
  - apply Hu; [|lia|lia].
    intros u v Hu' Hv'. unfold map in *. simpl in Hu', Hv'.
    repeat (destruct Hu' as [<-|Hu']; [|]); repeat (destruct Hv' as [<-|Hv']; [|]);
      try reflexivity; contradiction.
Defined.

(** ** The detail residual without blur *)

Lemma aget_outside {A : Type} (d : A) (a : list A) (i : Z) :
  ~ (0 <= i < alen a)%Z -> aget d a i = d.
Proof.
  unfold alen, aget. intros Hi.
  destruct (Z.ltb_spec i 0); [reflexivity|].
  rewrite (proj2 (lookup_ge_None a (Z.to_nat i))); [reflexivity|lia].
Qed.



(** A loop that stores [f i] at every index of a fresh array. *)
Lemma tabulate_spec (f : Z -> R) (n : Z) :
  (0 <= n)%Z ->
  let res := for_range 0 n (fun i a => aset a i (f i)) (newArray n) in
  alen res = n /\ (forall i, (0 <= i < n)%Z -> aget 0 res i = f i).
Proof.
  intros Hn res.
  destruct (fill1_spec 0 (fun i => i) f (newArray n) 0 n) as (Hlen & Hhit & _).
  { intros j Hj. now rewrite alen_newArray. }
  { intros j j' _ _ E. exact E. }
  rewrite alen_newArray in Hlen by exact Hn.
  split; [exact Hlen|exact Hhit].
Qed.

Lemma alen_nonneg {A : Type} (a : list A) : (0 <= alen a)%Z.
Proof. unfold alen. lia. Qed.


(** Normalising the all-zero field gives the all-zero field. *)
Lemma normaliseArray_zero (source : list R) :
  (forall i, aget 0 source i = 0) ->
  forall i, aget 0 (normaliseArray source) i = 0.
Proof.
  intros Hz i.
  destruct (Z_lt_ge_dec i 0) as [Hneg|Hpos];
    [apply aget_outside; rewrite normaliseArray_length; lia|].
  destruct (Z_lt_ge_dec i (alen source)) as [Hin|Hout];
    [|apply aget_outside; rewrite normaliseArray_length; lia].
  assert (Hne : source <> []).
  { intros ->. unfold alen in Hin. simpl in Hin. lia. }
  destruct (normaliseArray_spec source Hne) as (mn & mx & _ & (j & _ & Emn) & _ & _ & Hget).
  rewrite Hget by lia. rewrite Hz in *. subst mn.
  unfold Rdiv. ring.
Qed.




(** ** Tone mapping *)

Lemma toneValue_bounds (settings : EffectSettings) (smoothedV nDetail nSobel : R) :
  0 <= toneValue settings smoothedV nDetail nSobel <= 255.
Proof.
  unfold toneValue. cbv zeta.
  match goal with |- context [Rlt_dec 210 ?v] => set (v3 := v) end.
  assert (H3 : 0 <= v3 <= 255) by (apply clamp_bounds; lra).
  destruct (Rlt_dec 210 v3) as [Hhi|Hlo].
  - match goal with |- context [Rlt_dec ?v 80] => set (v4 := v) end.
    assert (H4 : 0 <= v4 <= 255) by (apply clamp_bounds; lra).
    destruct (Rlt_dec v4 80); [apply clamp_bounds; lra|exact H4].
  - destruct (Rlt_dec v3 80); [apply clamp_bounds; lra|exact H3].
Qed.

(** The three stores of one iteration of the tone-mapping loop. *)
Lemma store_rgb_spec (d : list Z) (i v j : Z) :
  (0 <= i)%Z ->
  let d' := aset (aset (aset d i v) (i + 1)%Z v) (i + 2)%Z v in
  alen d' = alen d
  /\ ((i <= j <= i + 2)%Z -> (j < alen d)%Z -> aget 0%Z d' j = v)
  /\ ((j < i \/ i + 2 < j)%Z -> aget 0%Z d' j = aget 0%Z d j).
Proof.
  intros Hi d'. subst d'. split; [|split].
  - now rewrite !alen_aset.
  - intros Hj Hlen.
    destruct (Z.eq_dec j (i + 2)%Z) as [->|H2].
    { apply aget_aset_eq. rewrite !alen_aset. lia. }
    rewrite aget_aset_ne by lia.
    destruct (Z.eq_dec j (i + 1)%Z) as [->|H1].
    { apply aget_aset_eq. rewrite !alen_aset. lia. }
    rewrite aget_aset_ne by lia.
    replace j with i by lia.
    apply aget_aset_eq. lia.
  - intros Hj. rewrite !aget_aset_ne by lia. reflexivity.
Qed.

(** [toneMapPass] byte by byte: the colour bytes of pixel [j / 4] hold the
    tone-mapped value of that pixel, the alpha bytes are untouched. *)
Lemma toneMapPass_spec (settings : EffectSettings) (data : list Z) (width height : Z) :
  let out := toneMapPass settings data width height in
  let value := fun idx =>
    toneValue settings
      (aget 0 (smoothedOf settings data width height) idx)
      (aget 0 (normalisedDetailOf settings data width height) idx)
      (aget 0 (normalisedSobelOf settings data width height) idx) in
  alen out = alen data
  /\ (forall j, (0 <= j < alen data)%Z -> (j mod 4 <> 3)%Z ->
        aget 0%Z out j = toUint8Clamp (value (j / 4)%Z))
  /\ (forall j, (j mod 4 = 3)%Z -> aget 0%Z out j = aget 0%Z data j).
Proof.
  intros out value.
  pose (P := fun (k : Z) (d : list Z) =>
    alen d = alen data
    /\ (forall j, (0 <= j < alen data)%Z -> (j < 4 * k)%Z -> (j mod 4 <> 3)%Z ->
          aget 0%Z d j = toUint8Clamp (value (j / 4)%Z))
    /\ (forall j, (4 * k <= j \/ j mod 4 = 3)%Z -> aget 0%Z d j = aget 0%Z data j)).
  assert (HP : P (Z.of_nat (Z.to_nat ((alen data + 3) / 4))) out).
  { unfold out, toneMapPass, for_range4. apply (for_loop_inv P).
    - split; [reflexivity|]. split; [intros; lia|reflexivity].
    - intros k d Hk (Hlen & Hhit & Hmiss).
      replace (0 + k * 4)%Z with (4 * k)%Z by lia.
      replace (4 * k / 4)%Z with k by (rewrite Z.mul_comm, Z.div_mul; lia).
      fold (value k).
      set (v := toUint8Clamp (value k)).
      split; [|split].
      + destruct (store_rgb_spec d (4 * k)%Z v 0%Z) as (Hl & _); [lia|].
        now rewrite Hl.
      + intros j Hj Hlt Hmod.
        destruct (store_rgb_spec d (4 * k)%Z v j) as (_ & Hin & Hout); [lia|].
        destruct (Z_lt_ge_dec j (4 * k)%Z) as [Hold|Hnew].
        * rewrite Hout by lia. apply Hhit; assumption.
        * assert (Hj2 : (j <= 4 * k + 2)%Z) by (Z.div_mod_to_equations; lia).
          rewrite Hin by lia. unfold v. f_equal. f_equal.
          Z.div_mod_to_equations. lia.
      + intros j Hj.
        destruct (store_rgb_spec d (4 * k)%Z v j) as (_ & _ & Hout); [lia|].
        rewrite Hout by (Z.div_mod_to_equations; lia).
        apply Hmiss. lia. }
  destruct HP as (Hlen & Hhit & Hmiss).
  split; [exact Hlen|]. split.
  - intros j Hj Hmod. apply Hhit; [exact Hj| |exact Hmod].
    pose proof (alen_nonneg data). Z.div_mod_to_equations. lia.
  - intros j Hj. apply Hmiss. right. exact Hj.
Qed.

(** C1: whatever the settings and the frame, the value the tone-mapping
    loop computes for a pixel lies in [0,255], so does every colour byte it
    stores, the alpha bytes are left as read from the frame, and every
    sample of the normalised detail and Sobel fields lies in [0,1]. *)
Theorem render_values_in_range
    (settings : EffectSettings) (data : list Z) (width height : Z) :
  (forall smoothedV nDetail nSobel,
     0 <= toneValue settings smoothedV nDetail nSobel <= 255)
  /\ (forall j, (0 <= j < alen data)%Z -> (j mod 4 <> 3)%Z ->
        (0 <= aget 0 (toneMapPass settings data width height) j <= 255)%Z)
  /\ (forall j, (j mod 4 = 3)%Z ->
        aget 0%Z (toneMapPass settings data width height) j = aget 0%Z data j)
  /\ (forall i, 0 <= aget 0 (normalisedDetailOf settings data width height) i <= 1)
  /\ (forall i, 0 <= aget 0 (normalisedSobelOf settings data width height) i <= 1).
Proof.
  destruct (toneMapPass_spec settings data width height) as (_ & Hhit & Hmiss).
  split; [intros; apply toneValue_bounds|].
  split; [intros j Hj Hmod; rewrite Hhit by assumption; apply toUint8Clamp_bounds|].
  split; [exact Hmiss|].
  split; intros i; apply normaliseArray_unit.
Qed.

Lemma render_values_in_range_witness :
  let data := [10; 20; 30; 255]%Z in
  (0 <= aget 0 (toneMapPass defaultSettings data 1 1) 0 <= 255)%Z
  /\ aget 0%Z (toneMapPass defaultSettings data 1 1) 3 = 255%Z
  /\ 0 <= aget 0 (normalisedDetailOf defaultSettings data 1 1) 0 <= 1
  /\ 0 <= aget 0 (normalisedSobelOf defaultSettings data 1 1) 0 <= 1.
Proof.
  intros data.
  destruct (render_values_in_range defaultSettings data 1 1) as (_ & Hb & Ha & Hd & Hs).
  split; [apply Hb; [unfold data, alen; simpl; lia|discriminate]|].
  split; [rewrite Ha by reflexivity; reflexivity|].
  split; [apply Hd|apply Hs].
Defined.

(** ** Finite sums *)

(** An accumulating loop computes a finite sum. *)
Lemma for_loop_sum (f : Z -> R) :
  forall (n : nat) (lo : Z) (acc : R),
    for_loop n lo 1 (fun k accum => accum + f k) acc = acc + sumZ lo n f.
Proof.
  induction n as [|n IH]; intros lo acc; cbn [for_loop sumZ].
  - ring.
  - rewrite IH. ring.
Qed.

Lemma sumZ_ext (f g : Z -> R) :
  forall (n : nat) (lo : Z),
    (forall i, (lo <= i < lo + Z.of_nat n)%Z -> f i = g i) ->
    sumZ lo n f = sumZ lo n g.
Proof.
  induction n as [|n IH]; intros lo Hfg; cbn [sumZ]; [reflexivity|].
  rewrite Hfg by lia. rewrite IH; [reflexivity|].
  intros i Hi. apply Hfg. lia.
Qed.

Lemma sumZ_shift (f : Z -> R) (d : Z) :
  forall (n : nat) (lo : Z),
    sumZ (lo + d) n f = sumZ lo n (fun i => f (i + d)%Z).
Proof.
  induction n as [|n IH]; intros lo; cbn [sumZ]; [reflexivity|].
  rewrite <- IH. do 2 f_equal. lia.
Qed.

Lemma sumZ_app (f : Z -> R) :
  forall (n m : nat) (lo : Z),
    sumZ lo (n + m) f = sumZ lo n f + sumZ (lo + Z.of_nat n) m f.
Proof.
  induction n as [|n IH]; intros m lo; cbn [sumZ Nat.add].
  - rewrite Z.add_0_r. ring.
  - rewrite IH. replace (lo + 1 + Z.of_nat n)%Z with (lo + Z.of_nat (S n))%Z by lia. ring.
Qed.

Lemma sumZ_snoc (f : Z -> R) (n : nat) (lo : Z) :
  sumZ lo (S n) f = sumZ lo n f + f (lo + Z.of_nat n)%Z.
Proof.
  replace (S n) with (n + 1)%nat by lia.
  rewrite sumZ_app. cbn [sumZ]. ring.
Qed.

Lemma sumZ_plus (f g : Z -> R) :
  forall (n : nat) (lo : Z),
    sumZ lo n (fun i => f i + g i) = sumZ lo n f + sumZ lo n g.
Proof.
  induction n as [|n IH]; intros lo; cbn [sumZ]; [ring|]. rewrite IH. ring.
Qed.

Lemma sumZ_scale (f : Z -> R) (c : R) :
  forall (n : nat) (lo : Z),
    sumZ lo n (fun i => f i * c) = sumZ lo n f * c.
Proof.
  induction n as [|n IH]; intros lo; cbn [sumZ]; [ring|]. rewrite IH. ring.
Qed.

Lemma sumZ_zero :
  forall (n : nat) (lo : Z), sumZ lo n (fun _ => 0) = 0.
Proof.
  induction n as [|n IH]; intros lo; cbn [sumZ]; [reflexivity|]. rewrite IH. ring.
Qed.

Lemma sumZ_swap (f : Z -> Z -> R) (m : nat) (b : Z) :
  forall (n : nat) (a : Z),
    sumZ a n (fun i => sumZ b m (fun j => f i j))
    = sumZ b m (fun j => sumZ a n (fun i => f i j)).
Proof.
  induction n as [|n IH]; intros a; cbn [sumZ].
  - now rewrite sumZ_zero.
  - rewrite IH, <- sumZ_plus. reflexivity.
Qed.

Lemma sumZ_pos (f : Z -> R) :
  forall (n : nat) (lo : Z),
    (0 < n)%nat -> (forall i, 0 < f i) -> 0 < sumZ lo n f.
Proof.
  induction n as [|n IH]; intros lo Hn Hf; [lia|]. cbn [sumZ].
  destruct n as [|n'].
  - cbn [sumZ]. specialize (Hf lo). lra.
  - specialize (IH (lo + 1)%Z ltac:(lia) Hf). specialize (Hf lo). lra.
Qed.

(** The total of a field is the sum of its samples by index. *)
Lemma fieldTotal_sumZ (a : list R) :
  fieldTotal a = sumZ 0 (length a) (aget 0 a).
Proof.
  induction a as [|v a IH]; cbn [fieldTotal fold_right length sumZ]; [reflexivity|].
  fold (fieldTotal a). rewrite IH.
  rewrite (sumZ_shift (aget 0 (v :: a)) 1 (length a) 0).
  f_equal. apply sumZ_ext. intros i Hi.
  unfold aget. destruct (Z.ltb_spec i 0); [lia|]. destruct (Z.ltb_spec (i + 1) 0); [lia|].
  replace (Z.to_nat (i + 1)) with (S (Z.to_nat i)) by lia. reflexivity.
Qed.

(** A sum over a row-major grid, row by row. *)
Lemma sumZ_grid (f : Z -> R) (w : nat) :
  forall (h : nat),
    sumZ 0 (h * w) f
    = sumZ 0 h (fun y => sumZ 0 w (fun x => f (y * Z.of_nat w + x)%Z)).
Proof.
  induction h as [|h IH].
  - reflexivity.
  - rewrite sumZ_snoc, <- IH.
    replace (S h * w)%nat with (h * w + w)%nat by lia.
    rewrite sumZ_app. f_equal.
    rewrite (sumZ_shift f (Z.of_nat (h * w)) w 0).
    apply sumZ_ext. intros i Hi. f_equal. lia.
Qed.

(** ** The Gaussian kernel *)

Lemma kernelValue_pos (radius i : Z) : 0 < kernelValue radius i.
Proof. unfold kernelValue. apply exp_pos. Qed.

(** The weights are symmetric about the centre. *)
Lemma kernelValue_sym (radius i : Z) :
  kernelValue radius (2 * radius - i) = kernelValue radius i.
Proof.
  unfold kernelValue. f_equal. f_equal. f_equal.
  replace (2 * radius - i - radius)%Z with (- (i - radius))%Z by lia.
  rewrite opp_IZR. ring.
Qed.

(** The first kernel loop: the weights, and their total. *)
Lemma kernelFill_spec (radius : Z) :
  (0 <= radius)%Z ->
  alen (fst (kernelFill radius)) = (radius * 2 + 1)%Z
  /\ (forall i, (0 <= i < radius * 2 + 1)%Z ->
        aget 0 (fst (kernelFill radius)) i = kernelValue radius i)
  /\ snd (kernelFill radius)
     = sumZ 0 (Z.to_nat (radius * 2 + 1)) (kernelValue radius).
Proof.
  intros Hr.
  pose (P := fun (i : Z) (st : list R * R) =>
    alen (fst st) = (radius * 2 + 1)%Z
    /\ (forall j, (0 <= j < i)%Z -> aget 0 (fst st) j = kernelValue radius j)
    /\ snd st = sumZ 0 (Z.to_nat i) (kernelValue radius)).
  assert (HP : P (Z.max 0 (radius * 2 + 1)) (kernelFill radius)).
  { unfold kernelFill. apply (for_range_inv P).
    - split; [apply alen_newArray; lia|]. split; [intros; lia|reflexivity].
    - intros i st Hi (Hlen & Hhit & Hsum). unfold P. cbv beta zeta. cbn [fst snd].
      split; [|split].
      + now rewrite alen_aset.
      + intros j Hj. destruct (Z.eq_dec j i) as [->|Hne].
        * apply aget_aset_eq. lia.
        * rewrite aget_aset_ne by lia. apply Hhit. lia.
      + replace (Z.to_nat (i + 1)) with (S (Z.to_nat i)) by lia.
        rewrite sumZ_snoc, Hsum. do 2 f_equal. lia. }
  replace (Z.max 0 (radius * 2 + 1)) with (radius * 2 + 1)%Z in HP by lia.
  exact HP.
Qed.

(** The second kernel loop divides every weight by the total. *)
Lemma gaussKernel_spec (radius : Z) :
  (0 <= radius)%Z ->
  alen (gaussKernel radius) = (radius * 2 + 1)%Z
  /\ (forall i, (0 <= i < radius * 2 + 1)%Z ->
        aget 0 (gaussKernel radius) i
        = kernelValue radius i / sumZ 0 (Z.to_nat (radius * 2 + 1)) (kernelValue radius)).
Proof.
  intros Hr.
  destruct (kernelFill_spec radius Hr) as (Hlen0 & Hget0 & Hsum0).
  unfold gaussKernel. destruct (kernelFill radius) as [kernel0 kernelSum].
  cbn [fst snd] in *. subst kernelSum.
  set (total := sumZ 0 (Z.to_nat (radius * 2 + 1)) (kernelValue radius)).
  pose (P := fun (i : Z) (k : list R) =>
    alen k = (radius * 2 + 1)%Z
    /\ (forall j, (0 <= j < i)%Z -> aget 0 k j = kernelValue radius j / total)
    /\ (forall j, (i <= j)%Z -> aget 0 k j = aget 0 kernel0 j)).
  match goal with |- alen ?k = _ /\ _ =>
    assert (HP : P (Z.max 0 (radius * 2 + 1)) k) end.
  { apply (for_range_inv P).
    - split; [exact Hlen0|]. split; [intros; lia|reflexivity].
    - intros i k Hi (Hlen & Hdone & Htodo). split; [|split].
      + now rewrite alen_aset.
      + intros j Hj. destruct (Z.eq_dec j i) as [->|Hne].
        * rewrite aget_aset_eq by lia. rewrite Htodo by lia. now rewrite Hget0.
        * rewrite aget_aset_ne by lia. apply Hdone. lia.
      + intros j Hj. rewrite aget_aset_ne by lia. apply Htodo. lia. }
  replace (Z.max 0 (radius * 2 + 1)) with (radius * 2 + 1)%Z in HP by lia.
  destruct HP as (Hlen & Hdone & _). split; assumption.
Qed.

(** The normalised weights are positive and sum to 1. *)
Lemma gaussKernel_total (radius : Z) :
  (0 <= radius)%Z ->
  sumZ 0 (Z.to_nat (radius * 2 + 1)) (aget 0 (gaussKernel radius)) = 1.
Proof.
  intros Hr. destruct (gaussKernel_spec radius Hr) as (_ & Hget).
  set (n := Z.to_nat (radius * 2 + 1)) in *.
  assert (Hpos : 0 < sumZ 0 n (kernelValue radius)).
  { apply sumZ_pos; [unfold n; lia|apply kernelValue_pos]. }
  rewrite (sumZ_ext _ (fun i => kernelValue radius i * / sumZ 0 n (kernelValue radius))).
  - rewrite sumZ_scale. field. lra.
  - intros i Hi. rewrite Hget by (unfold n in Hi; lia). reflexivity.
Qed.

Lemma gaussKernel_pos (radius i : Z) :
  (0 <= radius)%Z -> (0 <= i < radius * 2 + 1)%Z -> 0 < aget 0 (gaussKernel radius) i.
Proof.
  intros Hr Hi. destruct (gaussKernel_spec radius Hr) as (_ & Hget).
  rewrite Hget by exact Hi.
  apply Rdiv_lt_0_compat; [apply kernelValue_pos|].
  apply sumZ_pos; [lia|apply kernelValue_pos].
Qed.

Lemma gaussKernel_sym (radius i : Z) :
  (0 <= radius)%Z -> (0 <= i < radius * 2 + 1)%Z ->
  aget 0 (gaussKernel radius) (2 * radius - i) = aget 0 (gaussKernel radius) i.
Proof.
  intros Hr Hi. destruct (gaussKernel_spec radius Hr) as (_ & Hget).
  rewrite !Hget by lia. now rewrite kernelValue_sym.
Qed.

(** ** The two passes of the blur *)

Lemma blurRowAt_sum (source kernel : list R) (width radius x y : Z) :
  blurRowAt source kernel width radius x y
  = sumZ (- radius) (Z.to_nat (radius + 1 - - radius)) (fun k =>
      sampleAt source width (clampZ (x + k) 0 (width - 1)) y * aget 0 kernel (k + radius)%Z).
Proof.
  unfold blurRowAt, for_range, sampleAt. rewrite for_loop_sum. ring.
Qed.

Lemma blurColAt_sum (horizontal kernel : list R) (width height radius x y : Z) :
  blurColAt horizontal kernel width height radius x y
  = sumZ (- radius) (Z.to_nat (radius + 1 - - radius)) (fun k =>
      sampleAt horizontal width x (clampZ (y + k) 0 (height - 1))
      * aget 0 kernel (k + radius)%Z).
Proof.
  unfold blurColAt, for_range, sampleAt. rewrite for_loop_sum. ring.
Qed.

Lemma horizontalPass_spec (source kernel : list R) (width height radius : Z) :
  alen source = (width * height)%Z ->
  alen (horizontalPass source kernel width height radius) = alen source
  /\ (forall x y, (0 <= x < width)%Z -> (0 <= y < height)%Z ->
        sampleAt (horizontalPass source kernel width height radius) width x y
        = blurRowAt source kernel width radius x y).
Proof.
  intros Hlen. unfold horizontalPass, sampleAt.
  destruct (fill2_spec 0 (fun y x => (y * width + x)%Z)
              (fun y x => blurRowAt source kernel width radius x y)
              (newArray (alen source)) 0 height 0 width) as (Hl & Hhit & _).
  { intros y x Hy Hx. rewrite alen_newArray_alen, Hlen. apply grid_index_bounds; lia. }
  { intros y x y' x' Hy Hx Hy' Hx' E. apply (grid_index_inj width); [lia|lia|exact E]. }
  rewrite alen_newArray_alen in Hl. split; [exact Hl|].
  intros x y Hx Hy. apply Hhit; assumption.
Qed.

Lemma verticalPass_spec (source horizontal kernel : list R) (width height radius : Z) :
  alen source = (width * height)%Z ->
  alen (verticalPass source horizontal kernel width height radius) = alen source
  /\ (forall x y, (0 <= x < width)%Z -> (0 <= y < height)%Z ->
        sampleAt (verticalPass source horizontal kernel width height radius) width x y
        = blurColAt horizontal kernel width height radius x y).
Proof.
  intros Hlen. unfold verticalPass, sampleAt.
  destruct (fill2_spec 0 (fun x y => (y * width + x)%Z)
              (fun x y => blurColAt horizontal kernel width height radius x y)
              (newArray (alen source)) 0 width 0 height) as (Hl & Hhit & _).
  { intros x y Hx Hy. rewrite alen_newArray_alen, Hlen. apply grid_index_bounds; lia. }
  { intros x y x' y' Hx Hy Hx' Hy' E.
    destruct (grid_index_inj width x y x' y') as [-> ->]; [lia|lia|exact E|tauto]. }
  rewrite alen_newArray_alen in Hl. split; [exact Hl|].
  intros x y Hx Hy. apply Hhit; assumption.
Qed.

(** ** The total of a blurred field *)

Lemma gaussianBlur_passes (source : list R) (width height radius : Z) :
  (1 <= radius)%Z ->
  gaussianBlur source width height radius
  = verticalPass source
      (horizontalPass source (gaussKernel radius) width height radius)
      (gaussKernel radius) width height radius.
Proof.
  intros Hr. unfold gaussianBlur. destruct (Z.leb_spec radius 0); [lia|reflexivity].
Qed.

Lemma gaussianBlur_length (source : list R) (width height radius : Z) :
  alen source = (width * height)%Z ->
  alen (gaussianBlur source width height radius) = alen source.
Proof.
  intros Hlen. unfold gaussianBlur. destruct (Z.leb_spec radius 0); [reflexivity|].
  apply verticalPass_spec. exact Hlen.
Qed.

(** The total of a field of [width * height] samples, row by row. *)
Lemma fieldTotal_grid (a : list R) (width height : Z) :
  (0 <= width)%Z -> (0 <= height)%Z -> alen a = (width * height)%Z ->
  fieldTotal a
  = sumZ 0 (Z.to_nat height) (fun y =>
      sumZ 0 (Z.to_nat width) (fun x => sampleAt a width x y)).
Proof.
  intros Hw Hh Hlen. rewrite fieldTotal_sumZ.
  replace (length a) with (Z.to_nat height * Z.to_nat width)%nat
    by (unfold alen in Hlen; nia).
  rewrite sumZ_grid. rewrite Z2Nat.id by exact Hw. reflexivity.
Qed.

(** Sums of a line sampled one step back and one step ahead with clamped
    coordinates. *)
Lemma sumZ_clamp_prev (g : Z -> R) (m : nat) :
  sumZ 0 (S m) (fun x => g (clampZ (x + -1) 0 (Z.of_nat m))) = g 0%Z + sumZ 0 m g.
Proof.
  cbn [sumZ]. f_equal.
  - f_equal. unfold clampZ. lia.
  - rewrite (sumZ_shift _ 1 m 0). apply sumZ_ext. intros i Hi.
    f_equal. unfold clampZ. lia.
Qed.

Lemma sumZ_clamp_next (g : Z -> R) (m : nat) :
  sumZ 0 (S m) (fun x => g (clampZ (x + 1) 0 (Z.of_nat m)))
  = sumZ 1 m g + g (Z.of_nat m).
Proof.
  rewrite sumZ_snoc. f_equal.
  - transitivity (sumZ 0 m (fun i => g (i + 1)%Z)).
    + apply sumZ_ext. intros i Hi. f_equal. unfold clampZ. lia.
    + symmetry. apply (sumZ_shift g 1 m 0).
  - f_equal. unfold clampZ. lia.
Qed.

(** A three-tap symmetric kernel of total 1, applied along a line with
    clamped coordinates, keeps the total of the line. *)
Lemma three_tap_line_total (g : Z -> R) (a b : R) (n : nat) :
  a + b + a = 1 ->
  sumZ 0 n (fun x =>
    g (clampZ (x + -1) 0 (Z.of_nat n - 1)) * a
    + (g (clampZ (x + 0) 0 (Z.of_nat n - 1)) * b
       + (g (clampZ (x + 1) 0 (Z.of_nat n - 1)) * a + 0)))
  = sumZ 0 n g.
Proof.
  intros Hab. destruct n as [|m]; [reflexivity|].
  replace (Z.of_nat (S m) - 1)%Z with (Z.of_nat m) by lia.
  rewrite sumZ_plus, sumZ_plus, sumZ_plus, sumZ_zero.
  rewrite !sumZ_scale.
  rewrite sumZ_clamp_prev, sumZ_clamp_next.
  rewrite (sumZ_ext (fun x => g (clampZ (x + 0) 0 (Z.of_nat m))) g)
    by (intros i Hi; f_equal; unfold clampZ; lia).
  assert (H1 : sumZ 0 (S m) g = g 0%Z + sumZ 1 m g) by reflexivity.
  assert (H2 : sumZ 0 (S m) g = sumZ 0 m g + g (Z.of_nat m))
    by (rewrite sumZ_snoc; reflexivity).
  nra.
Qed.

(** The three weights of the radius-1 kernel. *)
Lemma gaussKernel_one :
  aget 0 (gaussKernel 1) 2 = aget 0 (gaussKernel 1) 0
  /\ aget 0 (gaussKernel 1) 0 + aget 0 (gaussKernel 1) 1 + aget 0 (gaussKernel 1) 0 = 1.
Proof.
  pose proof (gaussKernel_sym 1 0 ltac:(lia) ltac:(lia)) as Hsym.
  pose proof (gaussKernel_total 1 ltac:(lia)) as Htot.
  change (2 * 1 - 0)%Z with 2%Z in Hsym.
  change (Z.to_nat (1 * 2 + 1)) with 3%nat in Htot. cbn [sumZ] in Htot.
  norm_closed_Z_in Htot.
  split; [exact Hsym|]. rewrite Hsym in Htot. lra.
Qed.

Lemma blurRowAt_one (source : list R) (width x y : Z) :
  blurRowAt source (gaussKernel 1) width 1 x y
  = sampleAt source width (clampZ (x + -1) 0 (width - 1)) y * aget 0 (gaussKernel 1) 0
    + (sampleAt source width (clampZ (x + 0) 0 (width - 1)) y * aget 0 (gaussKernel 1) 1
       + (sampleAt source width (clampZ (x + 1) 0 (width - 1)) y * aget 0 (gaussKernel 1) 0
          + 0)).
Proof.
  destruct gaussKernel_one as (Hsym & _).
  rewrite blurRowAt_sum.
  change (Z.to_nat (1 + 1 - - (1))) with 3%nat. change (- (1))%Z with (-1)%Z.
  cbn [sumZ]. norm_closed_Z. now rewrite Hsym.
Qed.

Lemma blurColAt_one (horizontal : list R) (width height x y : Z) :
  blurColAt horizontal (gaussKernel 1) width height 1 x y
  = sampleAt horizontal width x (clampZ (y + -1) 0 (height - 1)) * aget 0 (gaussKernel 1) 0
    + (sampleAt horizontal width x (clampZ (y + 0) 0 (height - 1)) * aget 0 (gaussKernel 1) 1
       + (sampleAt horizontal width x (clampZ (y + 1) 0 (height - 1)) * aget 0 (gaussKernel 1) 0
          + 0)).
Proof.
  destruct gaussKernel_one as (Hsym & _).
  rewrite blurColAt_sum.
  change (Z.to_nat (1 + 1 - - (1))) with 3%nat. change (- (1))%Z with (-1)%Z.
  cbn [sumZ]. norm_closed_Z. now rewrite Hsym.
Qed.

(** With radius 1 the horizontal pass keeps the total of every row. *)
Lemma row_total_one (source : list R) (width y : Z) :
  (0 <= width)%Z ->
  sumZ 0 (Z.to_nat width) (fun x => blurRowAt source (gaussKernel 1) width 1 x y)
  = sumZ 0 (Z.to_nat width) (fun x => sampleAt source width x y).
Proof.
  intros Hw. destruct gaussKernel_one as (_ & Htot).
  rewrite <- (three_tap_line_total (fun x => sampleAt source width x y)
                (aget 0 (gaussKernel 1) 0) (aget 0 (gaussKernel 1) 1) (Z.to_nat width) Htot).
  apply sumZ_ext. intros x Hx. rewrite blurRowAt_one.
  rewrite Z2Nat.id by exact Hw. reflexivity.
Qed.

(** With radius 1 the vertical pass keeps the total of every column. *)
Lemma column_total_one (horizontal : list R) (width height x : Z) :
  (0 <= height)%Z ->
  sumZ 0 (Z.to_nat height) (fun y => blurColAt horizontal (gaussKernel 1) width height 1 x y)
  = sumZ 0 (Z.to_nat height) (fun y => sampleAt horizontal width x y).
Proof.
  intros Hh. destruct gaussKernel_one as (_ & Htot).
  rewrite <- (three_tap_line_total (fun y => sampleAt horizontal width x y)
                (aget 0 (gaussKernel 1) 0) (aget 0 (gaussKernel 1) 1) (Z.to_nat height) Htot).
  apply sumZ_ext. intros y Hy. rewrite blurColAt_one.
  rewrite Z2Nat.id by exact Hh. reflexivity.
Qed.

(** With radius 1 the blur keeps the total of the field. *)
Lemma gaussianBlur_one_total (source : list R) (width height : Z) :
  (0 <= width)%Z -> (0 <= height)%Z -> alen source = (width * height)%Z ->
  fieldTotal (gaussianBlur source width height 1) = fieldTotal source.
Proof.
  intros Hw Hh Hlen.
  rewrite gaussianBlur_passes by lia.
  set (K := gaussKernel 1).
  destruct (horizontalPass_spec source K width height 1 Hlen) as (Hhl & Hhp).
  set (hp := horizontalPass source K width height 1) in *.
  destruct (verticalPass_spec source hp K width height 1 Hlen) as (Hvl & Hvp).
  set (out := verticalPass source hp K width height 1) in *.
  rewrite (fieldTotal_grid out width height), (fieldTotal_grid source width height);
    [|assumption|assumption|assumption|assumption|assumption|congruence].
  transitivity (sumZ 0 (Z.to_nat height) (fun y =>
                  sumZ 0 (Z.to_nat width) (fun x => sampleAt hp width x y))).
  - transitivity (sumZ 0 (Z.to_nat height) (fun y =>
                    sumZ 0 (Z.to_nat width) (fun x => blurColAt hp K width height 1 x y))).
    { apply sumZ_ext. intros y Hy. apply sumZ_ext. intros x Hx. apply Hvp; lia. }
    rewrite sumZ_swap.
    rewrite (sumZ_swap (fun y x => sampleAt hp width x y)).
    apply sumZ_ext. intros x Hx. apply column_total_one. exact Hh.
  - apply sumZ_ext. intros y Hy.
    rewrite <- (row_total_one source width y Hw).
    apply sumZ_ext. intros x Hx. apply Hhp; lia.
Qed.

(** The weights as the passes index them, from [-radius] to [radius]. *)
Lemma weights_total (radius : Z) :
  (0 <= radius)%Z ->
  sumZ (- radius) (Z.to_nat (radius + 1 - - radius))
    (fun k => aget 0 (gaussKernel radius) (k + radius)%Z) = 1.
Proof.
  intros Hr.
  rewrite <- (sumZ_shift (aget 0 (gaussKernel radius)) radius).
  replace (- radius + radius)%Z with 0%Z by lia.
  replace (Z.to_nat (radius + 1 - - radius)) with (Z.to_nat (radius * 2 + 1)) by lia.
  apply gaussKernel_total. exact Hr.
Qed.

(** A weighted average of equal samples is that sample. *)
Lemma weighted_constant (radius : Z) (c : R) (sample : Z -> R) :
  (0 <= radius)%Z ->
  (forall k, sample k = c) ->
  sumZ (- radius) (Z.to_nat (radius + 1 - - radius))
    (fun k => sample k * aget 0 (gaussKernel radius) (k + radius)%Z) = c.
Proof.
  intros Hr Hc.
  rewrite (sumZ_ext _ (fun k => aget 0 (gaussKernel radius) (k + radius)%Z * c))
    by (intros k _; rewrite Hc; ring).
  rewrite sumZ_scale, weights_total by exact Hr. ring.
Qed.

(** The blur returns a constant field unchanged. *)
Lemma gaussianBlur_constant (source : list R) (width height radius : Z) :
  (0 <= width)%Z -> (0 <= height)%Z -> alen source = (width * height)%Z ->
  constantField source ->
  gaussianBlur source width height radius = source.
Proof.
  intros Hw Hh Hlen Hconst.
  destruct (Z_le_gt_dec radius 0) as [Hr0|Hr];
    [apply gaussianBlur_radius_nonpos; exact Hr0|].
  set (c := aget 0 source 0).
  assert (Hsrc : forall x y, (0 <= x < width)%Z -> (0 <= y < height)%Z ->
                   sampleAt source width x y = c).
  { intros x y Hx Hy. unfold sampleAt, c.
    apply Hconst; apply aget_in; rewrite Hlen; [apply grid_index_bounds; lia|nia]. }
  rewrite gaussianBlur_passes by lia.
  set (K := gaussKernel radius).
  destruct (horizontalPass_spec source K width height radius Hlen) as (Hhl & Hhp).
  set (hp := horizontalPass source K width height radius) in *.
  destruct (verticalPass_spec source hp K width height radius Hlen) as (Hvl & Hvp).
  set (out := verticalPass source hp K width height radius) in *.
  assert (Hrow : forall x y, (0 <= x < width)%Z -> (0 <= y < height)%Z ->
                   sampleAt hp width x y = c).
  { intros x y Hx Hy. rewrite Hhp, blurRowAt_sum by assumption.
    apply weighted_constant; [lia|]. intros k. apply Hsrc; [|exact Hy].
    pose proof (clampZ_bounds (x + k) 0 (width - 1)). lia. }
  assert (Hcol : forall x y, (0 <= x < width)%Z -> (0 <= y < height)%Z ->
                   sampleAt out width x y = c).
  { intros x y Hx Hy. rewrite Hvp, blurColAt_sum by assumption.
    apply weighted_constant; [lia|]. intros k. apply Hrow; [exact Hx|].
    pose proof (clampZ_bounds (y + k) 0 (height - 1)). lia. }
  apply array_ext; [exact Hvl|].
  intros p Hp. rewrite Hvl, Hlen in Hp.
  assert (Hwpos : (0 < width)%Z) by nia.
  assert (Hp' : p = (p / width * width + p mod width)%Z)
    by (rewrite Z.mul_comm; apply Z.div_mod; lia).
  assert (Hx : (0 <= p mod width < width)%Z) by (apply Z.mod_pos_bound; exact Hwpos).
  assert (Hy : (0 <= p / width < height)%Z).
  { split; [apply Z.div_pos; lia|]. apply Z.div_lt_upper_bound; lia. }
  specialize (Hcol _ _ Hx Hy). specialize (Hsrc _ _ Hx Hy).
  unfold sampleAt in Hcol, Hsrc. rewrite <- Hp' in Hcol, Hsrc. congruence.
Qed.

(** C2, as the code has it: the normalised weights sum to 1 for every
    radius of at least 1; with radius 1 the blur keeps the total of every
    field, and with any radius it keeps the total of a constant field. *)
Theorem gaussianBlur_total_conserved (source : list R) (width height radius : Z) :
  (0 <= width)%Z -> (0 <= height)%Z -> alen source = (width * height)%Z ->
  (1 <= radius)%Z ->
  sumZ 0 (Z.to_nat (radius * 2 + 1)) (aget 0 (gaussKernel radius)) = 1
  /\ (radius = 1%Z ->
      fieldTotal (gaussianBlur source width height radius) = fieldTotal source)
  /\ (constantField source ->
      fieldTotal (gaussianBlur source width height radius) = fieldTotal source).
Proof.
  intros Hw Hh Hlen Hr. split; [apply gaussKernel_total; lia|]. split.
  - intros ->. apply gaussianBlur_one_total; assumption.
  - intros Hc. now rewrite gaussianBlur_constant.
Qed.

Lemma gaussianBlur_total_conserved_witness :
  let source := [1; 0; 0; 2] in
  (0 <= 2)%Z /\ (0 <= 2)%Z /\ alen source = (2 * 2)%Z /\ (1 <= 1)%Z
  /\ fieldTotal (gaussianBlur source 2 2 1) = fieldTotal source.
Proof.
  intros source.
  assert (Hw : (0 <= 2)%Z) by lia.
  assert (Hlen : alen source = (2 * 2)%Z) by reflexivity.
  assert (Hr : (1 <= 1)%Z) by lia.
  destruct (gaussianBlur_total_conserved source 2 2 1 Hw Hw Hlen Hr) as (_ & Hone & _).
  repeat (split; [assumption|]). apply Hone. reflexivity.
Defined.

(** C2, as the specification states it, fails for radius 2: on the row
    [1; 0; 0] the clamped edge sampling counts the first sample once more
    than the weights account for, and the total grows by the outermost
    weight. *)
Lemma gaussianBlur_total_not_conserved :
  alen [1; 0; 0] = (3 * 1)%Z /\ (1 <= 2)%Z
  /\ fieldTotal (gaussianBlur [1; 0; 0] 3 1 2)
     = fieldTotal [1; 0; 0] + aget 0 (gaussKernel 2) 0
  /\ fieldTotal (gaussianBlur [1; 0; 0] 3 1 2) <> fieldTotal [1; 0; 0].
Proof.
  split; [reflexivity|]. split; [lia|].
  assert (Hpos : 0 < aget 0 (gaussKernel 2) 0) by (apply gaussKernel_pos; lia).
  assert (Heq : fieldTotal (gaussianBlur [1; 0; 0] 3 1 2)
                = fieldTotal [1; 0; 0] + aget 0 (gaussKernel 2) 0).
  { set (src := [1; 0; 0]).
    assert (Hlen : alen src = (3 * 1)%Z) by reflexivity.
    pose proof (gaussKernel_total 2 ltac:(lia)) as Htot.
    pose proof (gaussKernel_sym 2 0 ltac:(lia) ltac:(lia)) as Hs0.
    pose proof (gaussKernel_sym 2 1 ltac:(lia) ltac:(lia)) as Hs1.
    change (2 * 2 - 0)%Z with 4%Z in Hs0. change (2 * 2 - 1)%Z with 3%Z in Hs1.
    change (Z.to_nat (2 * 2 + 1)) with 5%nat in Htot. cbn [sumZ] in Htot.
    norm_closed_Z_in Htot.
    rewrite gaussianBlur_passes by lia.
    set (K := gaussKernel 2) in *.
    destruct (horizontalPass_spec src K 3 1 2 Hlen) as (Hhl & Hh).
    set (hp := horizontalPass src K 3 1 2) in *.
    destruct (verticalPass_spec src hp K 3 1 2 Hlen) as (Hvl & Hv).
    set (out := verticalPass src hp K 3 1 2) in *.
    rewrite fieldTotal_sumZ.
    replace (length out) with 3%nat by (rewrite Hlen in Hvl; unfold alen in Hvl; lia).
    cbn [sumZ]. norm_closed_Z.
    change (aget 0 out 0) with (sampleAt out 3 0 0).
    change (aget 0 out 1) with (sampleAt out 3 1 0).
    change (aget 0 out 2) with (sampleAt out 3 2 0).
    rewrite !Hv by lia. rewrite !blurColAt_sum.
    change (Z.to_nat (2 + 1 - - (2))) with 5%nat.
    cbn [sumZ]. norm_closed_Z. norm_clamp.
    rewrite !Hh by lia. rewrite !blurRowAt_sum.
    change (Z.to_nat (2 + 1 - - (2))) with 5%nat.
    cbn [sumZ]. norm_closed_Z. norm_clamp.
    change (sampleAt src 3 0 0) with 1.
    change (sampleAt src 3 1 0) with 0.
    change (sampleAt src 3 2 0) with 0.
    unfold src. cbn [fieldTotal fold_right].
    set (k0 := aget 0 K 0) in *. set (k1 := aget 0 K 1) in *.
    set (k2 := aget 0 K 2) in *. set (k3 := aget 0 K 3) in *.
    set (k4 := aget 0 K 4) in *.
    nra. }
  split; [exact Heq|]. rewrite Heq. lra.
Qed.

(** ** The fields of a frame *)

Lemma luminanceOf_length (data : list Z) (width height : Z) :
  (0 <= width * height)%Z ->
  alen (luminanceOf data width height) = (width * height)%Z.
Proof.
  intros Hn. unfold luminanceOf, for_range4.
  apply (for_loop_inv (fun _ a => alen a = (width * height)%Z)).
  - apply alen_newArray. exact Hn.
  - intros k a _ Hlen. now rewrite alen_aset.
Qed.

(** On a frame of [width * height] pixels every field of the render has
    [width * height] samples, so the reads at a pixel index are in bounds. *)
Lemma render_fields_length (settings : EffectSettings) (data : list Z) (width height : Z) :
  (0 <= width * height)%Z ->
  alen (luminanceOf data width height) = (width * height)%Z
  /\ alen (smoothedOf settings data width height) = (width * height)%Z
  /\ alen (normalisedDetailOf settings data width height) = (width * height)%Z
  /\ alen (normalisedSobelOf settings data width height) = (width * height)%Z.
Proof.
  intros Hn.
  pose proof (luminanceOf_length data width height Hn) as Hlum.
  assert (Hsm : alen (smoothedOf settings data width height) = (width * height)%Z).
  { unfold smoothedOf. now rewrite gaussianBlur_length. }
  split; [exact Hlum|]. split; [exact Hsm|]. split.
  - unfold normalisedDetailOf, detailSourceOf. rewrite normaliseArray_length.
    destruct (tabulate_spec
                (fun i => aget 0 (luminanceOf data width height) i
                          - aget 0 (smoothedOf settings data width height) i)
                (alen (luminanceOf data width height)) (alen_nonneg _)) as (Hlen & _).
    rewrite Hlen. exact Hlum.
  - unfold normalisedSobelOf. rewrite normaliseArray_length.
    destruct (applySobel_spec (smoothedOf settings data width height) width height Hsm)
      as (Hlen & _).
    rewrite Hlen. exact Hsm.
Qed.

(** ** The frame does not depend on the background lift *)











(** Without opacity the background does reach the frame: under a source
    that scales to transparent pixels, the bitmap handed to [getImageData]
    is the rasterised background gradient, which carries the lift. *)
Lemma drawSourceFrame_transparent_source (ua : UserAgent) (source : CanvasImageSource)
    (settings : EffectSettings) (width height : Z) (context : Context) :
  (forall crop dest p, resample ua source crop dest p = transparent) ->
  globalCompositeOperation context = SourceOver ->
  bitmap (drawSourceFrame ua source settings width height context)
  = imap (fun p _ =>
      rasterise ua (backgroundGradient settings (IZR height))
        (mkRect 0 0 (IZR width) (IZR height)) (Z.of_nat p)) (bitmap context).
Proof.
  intros Hres Hop.
  unfold drawSourceFrame, drawImage, fillRect, setFillStyle, clearRect.
  cbn [bitmap fillStyle globalCompositeOperation]. rewrite Hop.
  apply list_eq. intros p. rewrite !list_lookup_imap, list_lookup_fmap.
  destruct (bitmap context !! p) as [x|]; cbn; [|reflexivity].
  rewrite Hres. f_equal.
  destruct (rasterise ua _ _ _) as [r g b a]. unfold composite, transparent. cbn.
  f_equal; ring.
Qed.

(** * Further properties of the pipeline *)

(** ** Clamping and the byte store *)

Lemma clamp_inverted (v lo hi : R) : hi < lo -> clamp v lo hi = hi.
Proof.
  intros Hlt. unfold clamp, Rmin, Rmax.
  destruct (Rle_dec lo v); destruct (Rle_dec hi _); lra.
Qed.

Lemma clamp_low (v lo hi : R) : lo <= hi -> v <= lo -> clamp v lo hi = lo.
Proof.
  intros Hle Hv. unfold clamp, Rmin, Rmax.
  destruct (Rle_dec lo v); destruct (Rle_dec hi _); lra.
Qed.

Lemma clamp_high (v lo hi : R) : lo <= hi -> hi <= v -> clamp v lo hi = hi.
Proof.
  intros Hle Hv. unfold clamp, Rmin, Rmax.
  destruct (Rle_dec lo v); destruct (Rle_dec hi _); lra.
Qed.

Lemma clamp_idem (v lo hi : R) : clamp (clamp v lo hi) lo hi = clamp v lo hi.
Proof.
  destruct (Rle_dec lo hi) as [Hle|Hgt].
  - apply clamp_id, clamp_bounds, Hle.
  - rewrite !clamp_inverted by lra. reflexivity.
Qed.

(** X1: [clamp] is the identity inside the range, is idempotent, returns the
    nearest bound outside the range, and returns [max] whatever the value
    when the bounds are given in the wrong order. *)
Theorem clamp_projection (v lo hi : R) :
  (lo <= hi ->
     (lo <= v <= hi -> clamp v lo hi = v)
     /\ (v <= lo -> clamp v lo hi = lo)
     /\ (hi <= v -> clamp v lo hi = hi)
     /\ clamp (clamp v lo hi) lo hi = clamp v lo hi)
  /\ (hi < lo -> clamp v lo hi = hi).
Proof.
  split.
  - intros Hle. split; [apply clamp_id|]. split; [apply clamp_low, Hle|].
    split; [apply clamp_high, Hle|apply clamp_idem].
  - apply clamp_inverted.
Qed.

Lemma clamp_projection_witness :
  0 <= 100
  /\ clamp 62 0 100 = 62 /\ clamp (-5) 0 100 = 0 /\ clamp 250 0 100 = 100.
Proof.
  assert (H : 0 <= 100) by lra.
  destruct (clamp_projection 62 0 100) as (H1 & _).
  destruct (clamp_projection (-5) 0 100) as (H2 & _).
  destruct (clamp_projection 250 0 100) as (H3 & _).
  split; [exact H|]. split; [apply (H1 H); lra|]. split.
  - apply (H2 H). lra.
  - apply (H3 H). lra.
Defined.

Lemma toUint8Clamp_middle (x : R) :
  0 < x < 255 ->
  let f := Zfloor x in
  (0 <= f <= 254)%Z
  /\ IZR f <= x < IZR f + 1
  /\ (toUint8Clamp x = f \/ toUint8Clamp x = (f + 1)%Z)
  /\ (toUint8Clamp x = f -> x <= IZR f + 1 / 2)
  /\ (toUint8Clamp x = (f + 1)%Z -> IZR f + 1 / 2 <= x).
Proof.
  intros Hx f. subst f.
  pose proof (Zfloor_bound x) as [Hlo Hhi].
  assert (H0 : (0 <= Zfloor x)%Z) by (apply Zfloor_lub; simpl; lra).
  assert (H1 : (Zfloor x < 255)%Z) by (apply lt_IZR; lra).
  split; [lia|]. split; [lra|].
  unfold toUint8Clamp.
  destruct (Rle_dec x 0); [lra|]. destruct (Rle_dec 255 x); [lra|].
  destruct (Rlt_dec (IZR (Zfloor x) + 1 / 2) x);
    [|destruct (Rlt_dec x (IZR (Zfloor x) + 1 / 2)); [|destruct (Z.even (Zfloor x))]].
  all: split; [tauto|]; split; intros E; try lra; try lia.
Qed.

(** X2: The clamped-byte store gives back every integer from 0 to 255
    unchanged, moves a value of [0,255] by at most one half, and keeps the
    order of the values it stores. *)
Theorem toUint8Clamp_round_trip_and_monotone :
  (forall z, (0 <= z <= 255)%Z -> toUint8Clamp (IZR z) = z)
  /\ (forall x, 0 <= x <= 255 -> Rabs (IZR (toUint8Clamp x) - x) <= 1 / 2)
  /\ (forall x y, x <= y -> (toUint8Clamp x <= toUint8Clamp y)%Z).
Proof.
  split; [|split].
  - intros z Hz.
    destruct (Z.eq_dec z 0%Z) as [->|Hz0].
    { unfold toUint8Clamp. destruct (Rle_dec 0 0); [reflexivity|lra]. }
    destruct (Z.eq_dec z 255%Z) as [->|Hz255].
    { unfold toUint8Clamp. destruct (Rle_dec 255 0); [lra|].
      destruct (Rle_dec 255 255); [reflexivity|lra]. }
    assert (Hx : 0 < IZR z < 255) by (split; apply IZR_lt; lia).
    destruct (toUint8Clamp_middle (IZR z) Hx) as (_ & _ & [E|E] & _ & Hup);
      rewrite ZfloorZ in *; [exact E|].
    specialize (Hup E). lra.
  - intros x Hx.
    destruct (Req_dec x 0) as [->|Hx0].
    { unfold toUint8Clamp. destruct (Rle_dec 0 0); [|lra].
      rewrite Rminus_0_r, Rabs_R0. lra. }
    destruct (Req_dec x 255) as [->|Hx255].
    { unfold toUint8Clamp. destruct (Rle_dec 255 0); [lra|].
      destruct (Rle_dec 255 255); [|lra].
      replace (255 - 255) with 0 by lra. rewrite Rabs_R0. lra. }
    destruct (toUint8Clamp_middle x ltac:(lra)) as (_ & Hfl & [E|E] & Hdn & Hup).
    + specialize (Hdn E). rewrite E. apply Rabs_le. lra.
    + specialize (Hup E). rewrite E, plus_IZR. apply Rabs_le. lra.
  - intros x y Hxy.
    pose proof (toUint8Clamp_bounds x) as Hbx. pose proof (toUint8Clamp_bounds y) as Hby.
    destruct (Rle_dec x 0) as [Hx0|Hx0].
    { unfold toUint8Clamp at 1. destruct (Rle_dec x 0); [lia|lra]. }
    destruct (Rle_dec 255 y) as [Hy255|Hy255].
    { unfold toUint8Clamp at 2. destruct (Rle_dec y 0); [lra|].
      destruct (Rle_dec 255 y); [lia|lra]. }
    destruct (toUint8Clamp_middle x ltac:(lra)) as (_ & Hfx & Ex & Hdnx & Hupx).
    destruct (toUint8Clamp_middle y ltac:(lra)) as (_ & Hfy & Ey & Hdny & Hupy).
    pose proof (Zfloor_le x y Hxy) as Hfl.
    destruct (Z.eq_dec (Zfloor x) (Zfloor y)) as [Heq|Hne].
    + destruct Ex as [Ex|Ex]; destruct Ey as [Ey|Ey]; try lia.
      specialize (Hupx Ex). specialize (Hdny Ey). rewrite Heq in *.
      assert (Hxe : x = y) by lra. subst y. lia.
    + destruct Ex as [Ex|Ex]; destruct Ey as [Ey|Ey]; lia.
Qed.

(** ** The blur radius as a function of the smoothness setting *)

(** X3: A larger smoothness setting never gives a smaller blur radius, and
    settings below 0 or above 100 give the radius of 0 or of 100. *)
Theorem blurRadiusOf_monotone (s1 s2 : EffectSettings) :
  smoothness s1 <= smoothness s2 ->
  (blurRadiusOf s1 <= blurRadiusOf s2)%Z
  /\ (smoothness s1 <= 0 -> blurRadiusOf s1 = 0%Z)
  /\ (100 <= smoothness s2 -> blurRadiusOf s2 = 6%Z).
Proof.
  intros Hle. unfold blurRadiusOf, Math_round. split; [|split].
  - apply Zfloor_le.
    pose proof (clamp_mono (smoothness s1) (smoothness s2) 0 100 Hle). lra.
  - intros H0. rewrite clamp_low by lra. apply Zfloor_eq. simpl. lra.
  - intros H100. rewrite clamp_high by lra. apply Zfloor_eq. simpl. lra.
Qed.

Lemma blurRadiusOf_monotone_witness :
  smoothness defaultSettings <= smoothness (mkSettings 62 8 68 40 120 48 72 18 24 36)
  /\ (blurRadiusOf defaultSettings
      <= blurRadiusOf (mkSettings 62 8 68 40 120 48 72 18 24 36))%Z
  /\ blurRadiusOf (mkSettings 62 8 68 40 120 48 72 18 24 36) = 6%Z.
Proof.
  assert (H : smoothness defaultSettings
              <= smoothness (mkSettings 62 8 68 40 120 48 72 18 24 36))
    by (unfold defaultSettings; cbn [smoothness]; lra).
  destruct (blurRadiusOf_monotone defaultSettings
              (mkSettings 62 8 68 40 120 48 72 18 24 36) H) as (Hm & _ & Hhi).
  split; [exact H|]. split; [exact Hm|].
  apply Hhi. cbn [smoothness]. lra.
Defined.

(** ** The contrast curve *)

Lemma contrast_factor_ge_1 (c : R) :
  0 <= c < 259 -> 1 <= (259 * (c + 255)) / (255 * (259 - c)).
Proof.
  intros Hc.
  assert (Hd : 0 < 255 * (259 - c)) by lra.
  apply (Rmult_le_reg_r (255 * (259 - c))); [exact Hd|].
  unfold Rdiv. rewrite Rmult_assoc, Rinv_l by lra. lra.
Qed.

(** X4: For a contrast parameter from 0 up to (not including) 259, the curve
    stays in [0,255], keeps mid-gray 128 where it is, and moves every other
    value of [0,255] away from mid-gray or leaves it: values above 128 are
    not darkened, values below are not brightened. *)
Theorem contrastTransform_pivot (c v : R) :
  0 <= c < 259 ->
  0 <= contrastTransform v c <= 255
  /\ contrastTransform 128 c = 128
  /\ (128 <= v <= 255 -> v <= contrastTransform v c)
  /\ (0 <= v <= 128 -> contrastTransform v c <= v).
Proof.
  intros Hc. pose proof (contrast_factor_ge_1 c Hc) as Hf.
  unfold contrastTransform.
  set (factor := 259 * (c + 255) / (255 * (259 - c))) in *.
  split; [apply clamp_bounds; lra|]. split; [|split].
  - replace (factor * (128 - 128) + 128) with 128 by ring. apply clamp_id. lra.
  - intros Hv. rewrite <- (clamp_id v 0 255) at 1 by lra.
    apply clamp_mono. nra.
  - intros Hv. rewrite <- (clamp_id v 0 255) at 2 by lra.
    apply clamp_mono. nra.
Qed.

Lemma contrastTransform_pivot_witness :
  0 <= 30 + depthStrengthOf defaultSettings * 90 < 259
  /\ contrastTransform 128 (30 + depthStrengthOf defaultSettings * 90) = 128
  /\ 200 <= contrastTransform 200 (30 + depthStrengthOf defaultSettings * 90).
Proof.
  pose proof (contrast_parameter_range defaultSettings) as Hr.
  assert (Hc : 0 <= 30 + depthStrengthOf defaultSettings * 90 < 259) by lra.
  destruct (contrastTransform_pivot _ 200 Hc) as (_ & Hp & Hup & _).
  split; [exact Hc|]. split; [exact Hp|]. apply Hup. lra.
Defined.

(** ** Soft light and the two branches of the tone loop *)

Lemma softLight_bounds (base blend : R) : 0 <= softLight base blend <= 255.
Proof. unfold softLight. apply clamp_bounds. lra. Qed.

Lemma sqrt_unit (b : R) :
  0 <= b <= 1 -> 0 <= sqrt b <= 1 /\ sqrt b * sqrt b = b.
Proof.
  intros Hb. split; [split|].
  - apply sqrt_pos.
  - rewrite <- sqrt_1. apply sqrt_le_1; lra.
  - apply sqrt_sqrt. lra.
Qed.

(** X5: For a base value in [0,255], [softLight] returns a value of [0,255]
    that is no brighter than the base when the blend value is below 127.5
    and no darker when it is 127.5 or more; black and white bases are
    returned unchanged whatever the blend value. *)
Theorem softLight_direction (base blend : R) :
  0 <= base <= 255 ->
  0 <= softLight base blend <= 255
  /\ (blend < 255 / 2 -> softLight base blend <= base)
  /\ (255 / 2 <= blend -> base <= softLight base blend)
  /\ softLight 0 blend = 0
  /\ softLight 255 blend = 255.
Proof.
  intros Hb. split; [apply softLight_bounds|].
  assert (Hlow : forall b c, 0 <= b <= 1 -> c < 1 / 2 -> softLight_low b c <= b).
  { intros b c Hb' Hc. unfold softLight_low.
    assert (0 <= b * (1 - b) * (1 - 2 * c)) by (apply Rmult_le_pos; nra). nra. }
  assert (Hhigh : forall b c, 0 <= b <= 1 -> 1 / 2 <= c -> b <= softLight_high b c).
  { intros b c Hb' Hc. unfold softLight_high.
    destruct (sqrt_unit b Hb') as (Hs & Hss).
    set (s := sqrt b) in *.
    assert (0 <= s * (1 - s) * (2 * c - 1)) by (apply Rmult_le_pos; nra). nra. }
  split; [|split; [|split]].
  - intros Hc. unfold softLight.
    destruct (Rlt_dec (blend / 255) (1 / 2)) as [Hlt|Hge]; [|lra].
    rewrite <- (clamp_id base 0 255) at 2 by exact Hb.
    apply clamp_mono.
    specialize (Hlow (base / 255) (blend / 255) ltac:(lra) Hlt). lra.
  - intros Hc. unfold softLight.
    destruct (Rlt_dec (blend / 255) (1 / 2)) as [Hlt|Hge]; [lra|].
    rewrite <- (clamp_id base 0 255) at 1 by exact Hb.
    apply clamp_mono.
    specialize (Hhigh (base / 255) (blend / 255) ltac:(lra) ltac:(lra)). lra.
  - unfold softLight, softLight_low, softLight_high.
    replace (0 / 255) with 0 by lra. rewrite sqrt_0.
    destruct (Rlt_dec (blend / 255) (1 / 2));
      match goal with |- clamp ?e 0 255 = ?r => replace e with r by ring end;
      apply clamp_id; lra.
  - unfold softLight, softLight_low, softLight_high.
    replace (255 / 255) with 1 by lra. rewrite sqrt_1.
    destruct (Rlt_dec (blend / 255) (1 / 2));
      match goal with |- clamp ?e 0 255 = ?r => replace e with r by ring end;
      apply clamp_id; lra.
Qed.

Lemma softLight_direction_witness :
  0 <= 220 <= 255
  /\ 0 <= softLight 220 240 <= 255
  /\ 220 <= softLight 220 240.
Proof.
  assert (H : 0 <= 220 <= 255) by lra.
  destruct (softLight_direction 220 240 H) as (Hb & _ & Hup & _).
  split; [exact H|]. split; [exact Hb|]. apply Hup. lra.
Defined.

(** The tone loop is its base value followed by the highlight branch and
    the shadow branch. *)
Lemma toneValue_steps (settings : EffectSettings) (smoothedV nDetail nSobel : R) :
  toneValue settings smoothedV nDetail nSobel
  = shadowStep settings (highlightStep settings (baseTone settings smoothedV nDetail nSobel)).
Proof. reflexivity. Qed.

Lemma baseTone_bounds (settings : EffectSettings) (smoothedV nDetail nSobel : R) :
  0 <= baseTone settings smoothedV nDetail nSobel <= 255.
Proof. unfold baseTone. apply clamp_bounds. lra. Qed.

(** X6: The highlight branch leaves values up to 210 alone and never darkens
    a value of [0,255]; between 210 and 255 it brightens strictly, whatever
    the sheen setting, zero included. *)
Theorem highlightStep_brightens (settings : EffectSettings) (value : R) :
  0 <= value <= 255 ->
  (value <= 210 -> highlightStep settings value = value)
  /\ value <= highlightStep settings value <= 255
  /\ (210 < value < 255 -> value < highlightStep settings value).
Proof.
  intros Hv. unfold highlightStep.
  pose proof (strength_unit (sheen settings)) as Hs. fold (sheenStrengthOf settings) in Hs.
  destruct (Rlt_dec 210 value) as [Hhi|Hlo].
  - cbv zeta. set (boost := (value - 210) * (8 / 10) * sheenStrengthOf settings).
    assert (Hboost : 0 <= boost) by (unfold boost; apply Rmult_le_pos; nra).
    rewrite (clamp_id (softLight _ _)) by apply softLight_bounds.
    split; [intros; lra|].
    unfold softLight.
    destruct (Rlt_dec ((value + boost) / 255) (1 / 2)) as [Hlt|Hge]; [lra|].
    assert (Hb : 0 <= value / 255 <= 1) by lra.
    destruct (sqrt_unit (value / 255) Hb) as (Hsq & Hss).
    set (b := value / 255) in *. set (c := (value + boost) / 255) in *.
    set (s := sqrt b) in *.
    assert (Hc : b <= c) by (unfold b, c; lra).
    assert (Hgain : softLight_high b c - b = s * (1 - s) * (2 * c - 1))
      by (unfold softLight_high; fold s; nra).
    assert (Hnn : 0 <= s * (1 - s) * (2 * c - 1)) by (apply Rmult_le_pos; nra).
    split; [split|].
    + rewrite <- (clamp_id value 0 255) at 1 by exact Hv.
      apply clamp_mono. unfold b in *. lra.
    + apply clamp_bounds. lra.
    + intros Hin.
      assert (Hs0 : 0 < s).
      { destruct Hsq as [[Hpos|Hz] _]; [exact Hpos|]. rewrite <- Hz in Hss. unfold b in Hss. lra. }
      assert (Hs1 : s < 1).
      { destruct Hsq as [_ [Hlt1|H1]]; [exact Hlt1|]. rewrite H1 in Hss. unfold b in Hss. lra. }
      assert (Hc1 : 0 < 2 * c - 1) by (unfold b in Hc; lra).
      assert (Hpos : 0 < s * (1 - s) * (2 * c - 1))
        by (apply Rmult_lt_0_compat; [apply Rmult_lt_0_compat|]; lra).
      unfold clamp.
      apply Rmin_glb_lt; [lra|].
      apply Rlt_le_trans with (softLight_high b c * 255); [unfold b in *; lra|apply Rmax_r].
  - split; [reflexivity|]. split; [lra|intros; lra].
Qed.

Lemma highlightStep_brightens_witness :
  0 <= 230 <= 255
  /\ 230 < highlightStep (mkSettings 62 8 0 40 32 48 72 18 24 36) 230
  /\ highlightStep (mkSettings 62 8 0 40 32 48 72 18 24 36) 100 = 100.
Proof.
  assert (H : 0 <= 230 <= 255) by lra.
  destruct (highlightStep_brightens (mkSettings 62 8 0 40 32 48 72 18 24 36) 230 H)
    as (_ & _ & Hstrict).
  destruct (highlightStep_brightens (mkSettings 62 8 0 40 32 48 72 18 24 36) 100
              ltac:(lra)) as (Hid & _).
  split; [exact H|]. split; [apply Hstrict; lra|apply Hid; lra].
Defined.

(** X7: The shadow branch leaves values from 80 up alone and lifts a
    darker value of [0,255] to a value that is no darker and at most 80. *)
Theorem shadowStep_lifts (settings : EffectSettings) (value : R) :
  0 <= value <= 255 ->
  (80 <= value -> shadowStep settings value = value)
  /\ (value < 80 -> value <= shadowStep settings value <= 80).
Proof.
  intros Hv.
  pose proof (strength_unit (matte settings)) as Hm. fold (matteStrengthOf settings) in Hm.
  unfold shadowStep. destruct (Rlt_dec value 80) as [Hlt|Hge].
  - split; [intros; lra|]. intros _. cbv zeta.
    set (m := matteStrengthOf settings) in *.
    assert (0 <= (80 - value) * (6 / 10) * m <= (80 - value) * (6 / 10)) by nra.
    rewrite clamp_id by lra. lra.
  - split; [reflexivity|intros; lra].
Qed.

Lemma shadowStep_lifts_witness :
  0 <= 40 <= 255
  /\ 40 <= shadowStep defaultSettings 40 <= 80
  /\ shadowStep defaultSettings 90 = 90.
Proof.
  assert (H1 : 0 <= 40 <= 255) by lra.
  destruct (shadowStep_lifts defaultSettings 40 H1) as (_ & Hl).
  destruct (shadowStep_lifts defaultSettings 90 ltac:(lra)) as (Hk & _).
  split; [exact H1|]. split; [apply Hl; lra|apply Hk; lra].
Defined.

(** ** Luminance *)

(** An index of a [width * height] field is the row-major index of a grid
    point. *)
Lemma grid_index_decompose (width height p : Z) :
  (0 <= width)%Z -> (0 <= height)%Z -> (0 <= p < width * height)%Z ->
  exists x y, (0 <= x < width)%Z /\ (0 <= y < height)%Z /\ p = (y * width + x)%Z.
Proof.
  intros Hw Hh Hp.
  assert (Hwpos : (0 < width)%Z) by nia.
  exists (p mod width)%Z, (p / width)%Z.
  split; [apply Z.mod_pos_bound; exact Hwpos|]. split.
  - split; [apply Z.div_pos; lia|]. apply Z.div_lt_upper_bound; lia.
  - rewrite Z.mul_comm. apply Z.div_mod. lia.
Qed.

(** The luminance loop sample by sample, on a frame of [width * height]
    pixels. *)
Lemma luminanceOf_spec (data : list Z) (width height : Z) :
  (0 <= width * height)%Z -> alen data = (4 * (width * height))%Z ->
  forall idx, (0 <= idx < width * height)%Z ->
    aget 0 (luminanceOf data width height) idx
    = IZR (aget 0%Z data (4 * idx)) * (299 / 1000)
      + IZR (aget 0%Z data (4 * idx + 1)) * (587 / 1000)
      + IZR (aget 0%Z data (4 * idx + 2)) * (114 / 1000).
Proof.
  intros Hn Hlen.
  set (gray := fun idx : Z =>
    IZR (aget 0%Z data (4 * idx)) * (299 / 1000)
    + IZR (aget 0%Z data (4 * idx + 1)) * (587 / 1000)
    + IZR (aget 0%Z data (4 * idx + 2)) * (114 / 1000)).
  pose (P := fun (k : Z) (a : list R) =>
    alen a = (width * height)%Z
    /\ forall j, (0 <= j < k)%Z -> aget 0 a j = gray j).
  assert (Hcount : Z.of_nat (Z.to_nat ((alen data + 3) / 4)) = (width * height)%Z).
  { rewrite Hlen. set (n := (width * height)%Z) in *.
    assert ((4 * n + 3) / 4 = n)%Z by (Z.div_mod_to_equations; lia). lia. }
  assert (HP : P (Z.of_nat (Z.to_nat ((alen data + 3) / 4))) (luminanceOf data width height)).
  { unfold luminanceOf, for_range4. apply (for_loop_inv P).
    - split; [apply alen_newArray; exact Hn|intros; lia].
    - intros k a Hk (Hla & Hdone). unfold P. cbv zeta.
      replace (0 + k * 4)%Z with (4 * k)%Z by lia.
      replace (4 * k / 4)%Z with k by (rewrite Z.mul_comm, Z.div_mul; lia).
      split; [now rewrite alen_aset|].
      intros j Hj. destruct (Z.eq_dec j k) as [->|Hne].
      + rewrite aget_aset_eq by lia. reflexivity.
      + rewrite aget_aset_ne by lia. apply Hdone. lia. }
  destruct HP as (_ & Hget). intros idx Hidx. apply Hget. lia.
Qed.

(** X8: On a frame whose bytes lie in 0..255 every luminance sample lies in
    [0,255], and a pixel whose three colour bytes are equal has that byte
    as its luminance. *)
Theorem luminanceOf_range_and_gray (data : list Z) (width height : Z) :
  (0 <= width * height)%Z -> alen data = (4 * (width * height))%Z ->
  byteFrame data ->
  alen (luminanceOf data width height) = (width * height)%Z
  /\ fieldWithin 0 255 (luminanceOf data width height)
  /\ (forall idx, (0 <= idx < width * height)%Z ->
        aget 0%Z data (4 * idx + 1) = aget 0%Z data (4 * idx) ->
        aget 0%Z data (4 * idx + 2) = aget 0%Z data (4 * idx) ->
        aget 0 (luminanceOf data width height) idx = IZR (aget 0%Z data (4 * idx))).
Proof.
  intros Hn Hlen Hbytes.
  pose proof (luminanceOf_length data width height Hn) as Hl.
  pose proof (luminanceOf_spec data width height Hn Hlen) as Hspec.
  split; [exact Hl|]. split.
  - intros idx Hidx. rewrite Hl in Hidx. rewrite Hspec by exact Hidx.
    pose proof (Hbytes (4 * idx)%Z ltac:(lia)) as [Hr0 Hr1].
    pose proof (Hbytes (4 * idx + 1)%Z ltac:(lia)) as [Hg0 Hg1].
    pose proof (Hbytes (4 * idx + 2)%Z ltac:(lia)) as [Hb0 Hb1].
    apply IZR_le in Hr0, Hr1, Hg0, Hg1, Hb0, Hb1. lra.
  - intros idx Hidx Hg Hb. rewrite Hspec by exact Hidx. rewrite Hg, Hb. lra.
Qed.

Lemma luminanceOf_range_and_gray_witness :
  let data := [90; 90; 90; 255]%Z in
  (0 <= 1 * 1)%Z /\ alen data = (4 * (1 * 1))%Z /\ byteFrame data
  /\ aget 0 (luminanceOf data 1 1) 0 = 90.
Proof.
  intros data.
  assert (Hn : (0 <= 1 * 1)%Z) by lia.
  assert (Hlen : alen data = (4 * (1 * 1))%Z) by reflexivity.
  assert (Hb : byteFrame data).
  { intros i Hi. rewrite Hlen in Hi.
    assert (Hc : (i = 0 \/ i = 1 \/ i = 2 \/ i = 3)%Z) by lia.
    destruct Hc as [-> | [-> | [-> | ->]]]; unfold data; vm_compute; split; discriminate. }
  destruct (luminanceOf_range_and_gray data 1 1 Hn Hlen Hb) as (_ & _ & Hgray).
  split; [exact Hn|]. split; [exact Hlen|]. split; [exact Hb|].
  apply (Hgray 0%Z); [lia|reflexivity|reflexivity].
Defined.

(** ** The blur stays within the bounds of its input *)

Lemma sumZ_le (f g : Z -> R) :
  forall (n : nat) (lo : Z),
    (forall i, (lo <= i < lo + Z.of_nat n)%Z -> f i <= g i) ->
    sumZ lo n f <= sumZ lo n g.
Proof.
  induction n as [|n IH]; intros lo Hfg; cbn [sumZ]; [lra|].
  specialize (IH (lo + 1)%Z ltac:(intros i Hi; apply Hfg; lia)).
  specialize (Hfg lo ltac:(lia)). lra.
Qed.

(** A weighted average of samples of [lo, hi] lies in [lo, hi]. *)
Lemma weighted_within (radius : Z) (lo hi : R) (sample : Z -> R) :
  (0 <= radius)%Z ->
  (forall k, lo <= sample k <= hi) ->
  lo <= sumZ (- radius) (Z.to_nat (radius + 1 - - radius))
          (fun k => sample k * aget 0 (gaussKernel radius) (k + radius)%Z) <= hi.
Proof.
  intros Hr Hs.
  pose proof (weights_total radius Hr) as Htot.
  set (n := Z.to_nat (radius + 1 - - radius)) in *.
  set (wt := fun k => aget 0 (gaussKernel radius) (k + radius)%Z) in *.
  assert (Hpos : forall k, (- radius <= k < - radius + Z.of_nat n)%Z -> 0 < wt k).
  { intros k Hk. unfold wt. apply gaussKernel_pos; [exact Hr|unfold n in Hk; lia]. }
  split.
  - replace lo with (sumZ (- radius) n wt * lo) by (rewrite Htot; ring).
    rewrite <- sumZ_scale. apply sumZ_le. intros k Hk. cbv beta.
    specialize (Hpos k Hk). specialize (Hs k). fold (wt k). nra.
  - replace hi with (sumZ (- radius) n wt * hi) by (rewrite Htot; ring).
    rewrite <- sumZ_scale. apply sumZ_le. intros k Hk. cbv beta.
    specialize (Hpos k Hk). specialize (Hs k). fold (wt k). nra.
Qed.

Lemma fieldWithin_grid (lo hi : R) (a : list R) (width height : Z) :
  (0 <= width)%Z -> (0 <= height)%Z -> alen a = (width * height)%Z ->
  (fieldWithin lo hi a
   <-> forall x y, (0 <= x < width)%Z -> (0 <= y < height)%Z ->
         lo <= sampleAt a width x y <= hi).
Proof.
  intros Hw Hh Hlen. split.
  - intros Ha x y Hx Hy. apply Ha. rewrite Hlen. apply grid_index_bounds; assumption.
  - intros Hg i Hi. rewrite Hlen in Hi.
    destruct (grid_index_decompose width height i Hw Hh Hi) as (x & y & Hx & Hy & ->).
    apply Hg; assumption.
Qed.

Lemma gaussianBlur_within_lemma (source : list R) (width height radius : Z) (lo hi : R) :
  (0 <= width)%Z -> (0 <= height)%Z -> alen source = (width * height)%Z ->
  fieldWithin lo hi source ->
  fieldWithin lo hi (gaussianBlur source width height radius).
Proof.
  intros Hw Hh Hlen Hsrc.
  destruct (Z_le_gt_dec radius 0) as [Hr0|Hr];
    [rewrite gaussianBlur_radius_nonpos by exact Hr0; exact Hsrc|].
  pose proof (proj1 (fieldWithin_grid lo hi source width height Hw Hh Hlen) Hsrc) as Hgrid.
  rewrite gaussianBlur_passes by lia.
  set (K := gaussKernel radius).
  destruct (horizontalPass_spec source K width height radius Hlen) as (Hhl & Hhp).
  set (hp := horizontalPass source K width height radius) in *.
  destruct (verticalPass_spec source hp K width height radius Hlen) as (Hvl & Hvp).
  set (out := verticalPass source hp K width height radius) in *.
  assert (Hrow : forall x y, (0 <= x < width)%Z -> (0 <= y < height)%Z ->
                   lo <= sampleAt hp width x y <= hi).
  { intros x y Hx Hy. rewrite Hhp, blurRowAt_sum by assumption.
    apply weighted_within; [lia|]. intros k. apply Hgrid; [|exact Hy].
    pose proof (clampZ_bounds (x + k) 0 (width - 1)). lia. }
  apply (fieldWithin_grid lo hi out width height Hw Hh); [congruence|].
  intros x y Hx Hy. rewrite Hvp, blurColAt_sum by assumption.
  apply weighted_within; [lia|]. intros k. apply Hrow; [exact Hx|].
  pose proof (clampZ_bounds (y + k) 0 (height - 1)). lia.
Qed.

(** X9: Whatever the radius, the blur of a field of [width * height] samples
    has as many samples, each between the least and the greatest sample of
    the input: it creates no new extreme. *)
Theorem gaussianBlur_within (source : list R) (width height radius : Z) (lo hi : R) :
  (0 <= width)%Z -> (0 <= height)%Z -> alen source = (width * height)%Z ->
  fieldWithin lo hi source ->
  alen (gaussianBlur source width height radius) = alen source
  /\ fieldWithin lo hi (gaussianBlur source width height radius).
Proof.
  intros Hw Hh Hlen Hsrc. split.
  - apply gaussianBlur_length. exact Hlen.
  - apply gaussianBlur_within_lemma; assumption.
Qed.

Lemma gaussianBlur_within_witness :
  let source := [1; 0; 0; 2] in
  (0 <= 2)%Z /\ alen source = (2 * 2)%Z /\ fieldWithin 0 2 source
  /\ fieldWithin 0 2 (gaussianBlur source 2 2 3).
Proof.
  intros source.
  assert (Hw : (0 <= 2)%Z) by lia.
  assert (Hlen : alen source = (2 * 2)%Z) by reflexivity.
  assert (Hsrc : fieldWithin 0 2 source).
  { intros i Hi. rewrite Hlen in Hi.
    assert (Hc : (i = 0 \/ i = 1 \/ i = 2 \/ i = 3)%Z) by lia.
    destruct Hc as [-> | [-> | [-> | ->]]];
      [change (aget 0 source 0) with 1 | change (aget 0 source 1) with 0
      |change (aget 0 source 2) with 0 | change (aget 0 source 3) with 2]; lra. }
  destruct (gaussianBlur_within source 2 2 3 0 2 Hw Hw Hlen Hsrc) as (_ & Hout).
  repeat (split; [assumption|]). exact Hout.
Defined.

(** X10: On a frame whose bytes lie in 0..255, the blurred luminance the tone
    loop starts from lies in [0,255] at every pixel, whatever the
    settings. *)
Theorem smoothedOf_range (settings : EffectSettings) (data : list Z) (width height : Z) :
  (0 <= width)%Z -> (0 <= height)%Z -> alen data = (4 * (width * height))%Z ->
  byteFrame data ->
  alen (smoothedOf settings data width height) = (width * height)%Z
  /\ fieldWithin 0 255 (smoothedOf settings data width height).
Proof.
  intros Hw Hh Hlen Hbytes.
  assert (Hn : (0 <= width * height)%Z) by nia.
  pose proof (luminanceOf_length data width height Hn) as Hl.
  assert (Hlum : fieldWithin 0 255 (luminanceOf data width height)).
  { intros idx Hidx. rewrite Hl in Hidx.
    rewrite (luminanceOf_spec data width height Hn Hlen) by exact Hidx.
    pose proof (Hbytes (4 * idx)%Z ltac:(lia)) as [Hr0 Hr1].
    pose proof (Hbytes (4 * idx + 1)%Z ltac:(lia)) as [Hg0 Hg1].
    pose proof (Hbytes (4 * idx + 2)%Z ltac:(lia)) as [Hb0 Hb1].
    apply IZR_le in Hr0, Hr1, Hg0, Hg1, Hb0, Hb1. lra. }
  unfold smoothedOf. split.
  - now rewrite gaussianBlur_length.
  - apply gaussianBlur_within_lemma; assumption.
Qed.

Lemma smoothedOf_range_witness :
  let data := [90; 90; 90; 255]%Z in
  (0 <= 1)%Z /\ alen data = (4 * (1 * 1))%Z /\ byteFrame data
  /\ fieldWithin 0 255 (smoothedOf defaultSettings data 1 1).
Proof.
  intros data.
  assert (Hw : (0 <= 1)%Z) by lia.
  assert (Hlen : alen data = (4 * (1 * 1))%Z) by reflexivity.
  assert (Hb : byteFrame data).
  { intros i Hi. rewrite Hlen in Hi.
    assert (Hc : (i = 0 \/ i = 1 \/ i = 2 \/ i = 3)%Z) by lia.
    destruct Hc as [-> | [-> | [-> | ->]]]; unfold data; vm_compute; split; discriminate. }
  destruct (smoothedOf_range defaultSettings data 1 1 Hw Hw Hlen Hb) as (_ & Hs).
  repeat (split; [assumption|]). exact Hs.
Defined.

(** ** Sobel: sign and brightness offsets *)

Lemma alen_map {A B : Type} (f : A -> B) (l : list A) : alen (List.map f l) = alen l.
Proof. unfold alen. now rewrite length_map. Qed.

Lemma aget_map {A B : Type} (d : A) (d' : B) (f : A -> B) (l : list A) (i : Z) :
  (0 <= i < alen l)%Z -> aget d' (List.map f l) i = f (aget d l i).
Proof.
  unfold alen, aget. intros Hi. destruct (Z.ltb_spec i 0); [lia|].
  destruct (lookup_lt_is_Some_2 l (Z.to_nat i) ltac:(lia)) as [v Hv].
  change (List.map f l) with (f <$> l).
  rewrite list_lookup_fmap, Hv. reflexivity.
Qed.

Lemma applySobel_nonneg (field : list R) (width height : Z) :
  (0 <= width)%Z -> (0 <= height)%Z -> alen field = (width * height)%Z ->
  forall i, 0 <= aget 0 (applySobel field width height) i.
Proof.
  intros Hw Hh Hlen i.
  destruct (applySobel_spec field width height Hlen) as (Hl & Hin & Hborder).
  destruct (Z_lt_ge_dec i 0) as [Hneg|Hpos];
    [rewrite aget_outside by lia; lra|].
  destruct (Z_lt_ge_dec i (alen field)) as [Hlt|Hge];
    [|rewrite aget_outside by lia; lra].
  destruct (grid_index_decompose width height i Hw Hh ltac:(lia)) as (x & y & Hx & Hy & ->).
  fold (sampleAt (applySobel field width height) width x y).
  destruct (Z_lt_ge_dec x 1); [rewrite Hborder by lia; lra|].
  destruct (Z_lt_ge_dec y 1); [rewrite Hborder by lia; lra|].
  destruct (Z_lt_ge_dec x (width - 1)); [|rewrite Hborder by lia; lra].
  destruct (Z_lt_ge_dec y (height - 1)); [|rewrite Hborder by lia; lra].
  rewrite Hin by lia. unfold sobelMagnitude. apply sqrt_pos.
Qed.

(** X11: On a field of [width * height] samples, [applySobel] returns as many
    samples, none of them negative; and, over exact arithmetic, adding one
    constant to every sample of the field does not change the result.  (The
    rounding of the samples a [Float32Array] stores is not modelled: in the
    program the shifted samples are rounded, and the result can change by
    that rounding.) *)
Theorem applySobel_offset_invariant (field : list R) (width height : Z) (c : R) :
  (0 <= width)%Z -> (0 <= height)%Z -> alen field = (width * height)%Z ->
  alen (applySobel field width height) = alen field
  /\ (forall i, 0 <= aget 0 (applySobel field width height) i)
  /\ applySobel (List.map (fun v => v + c) field) width height
     = applySobel field width height.
Proof.
  intros Hw Hh Hlen.
  destruct (applySobel_spec field width height Hlen) as (Hl & Hin & Hborder).
  split; [exact Hl|]. split; [apply applySobel_nonneg; assumption|].
  set (shifted := List.map (fun v => v + c) field).
  assert (Hlen' : alen shifted = (width * height)%Z)
    by (unfold shifted; now rewrite alen_map).
  destruct (applySobel_spec shifted width height Hlen') as (Hl' & Hin' & Hborder').
  assert (Hsample : forall x y, (0 <= x < width)%Z -> (0 <= y < height)%Z ->
            sampleAt shifted width x y = sampleAt field width x y + c).
  { intros x y Hx Hy. unfold sampleAt, shifted.
    apply (aget_map 0 0 (fun v => v + c)). rewrite Hlen. apply grid_index_bounds; assumption. }
  apply array_ext; [congruence|].
  intros p Hp. rewrite Hl', Hlen' in Hp.
  destruct (grid_index_decompose width height p Hw Hh Hp) as (x & y & Hx & Hy & ->).
  fold (sampleAt (applySobel shifted width height) width x y).
  fold (sampleAt (applySobel field width height) width x y).
  destruct (Z_lt_ge_dec x 1); [rewrite Hborder, Hborder' by lia; reflexivity|].
  destruct (Z_lt_ge_dec y 1); [rewrite Hborder, Hborder' by lia; reflexivity|].
  destruct (Z_lt_ge_dec x (width - 1)); [|rewrite Hborder, Hborder' by lia; reflexivity].
  destruct (Z_lt_ge_dec y (height - 1)); [|rewrite Hborder, Hborder' by lia; reflexivity].
  rewrite Hin, Hin' by lia. unfold sobelMagnitude.
  destruct (sobelGradient_spec shifted width x y) as [-> ->].
  destruct (sobelGradient_spec field width x y) as [-> ->].
  unfold sobelGxSpec, sobelGySpec.
  rewrite !Hsample by lia. f_equal. ring.
Qed.

Lemma applySobel_offset_invariant_witness :
  let field := [1; 2; 3; 4; 9; 6; 7; 8; 5] in
  (0 <= 3)%Z /\ alen field = (3 * 3)%Z
  /\ applySobel (List.map (fun v => v + 100) field) 3 3 = applySobel field 3 3.
Proof.
  intros field.
  assert (Hw : (0 <= 3)%Z) by lia.
  assert (Hlen : alen field = (3 * 3)%Z) by reflexivity.
  destruct (applySobel_offset_invariant field 3 3 100 Hw Hw Hlen) as (_ & _ & Heq).
  split; [exact Hw|]. split; [exact Hlen|exact Heq].
Defined.

(** ** The shape of the kernel *)

Lemma exp_le (x y : R) : x <= y -> exp x <= exp y.
Proof.
  intros [Hlt | ->]; [left; apply exp_increasing; exact Hlt|right; reflexivity].
Qed.

Lemma kernelValue_peaked (radius i j : Z) :
  (1 <= radius)%Z -> (Z.abs (i - radius) <= Z.abs (j - radius))%Z ->
  kernelValue radius j <= kernelValue radius i.
Proof.
  intros Hr Habs. unfold kernelValue. apply exp_le.
  assert (Hsq : ((i - radius) * (i - radius) <= (j - radius) * (j - radius))%Z) by nia.
  apply IZR_le in Hsq. rewrite !mult_IZR in Hsq.
  assert (Hr' : 1 <= IZR radius) by (apply IZR_le; exact Hr).
  assert (Hd : 0 < 2 * IZR radius * IZR radius) by nra.
  unfold Rdiv. apply Rmult_le_compat_r; [left; apply Rinv_0_lt_compat; exact Hd|].
  lra.
Qed.

(** X12: For a radius of at least 1 the kernel has [2 * radius + 1] weights,
    all positive, symmetric about the centre, and no larger the further
    they are from the centre. *)
Theorem gaussKernel_shape (radius : Z) :
  (1 <= radius)%Z ->
  alen (gaussKernel radius) = (radius * 2 + 1)%Z
  /\ (forall i, (0 <= i < radius * 2 + 1)%Z ->
        0 < aget 0 (gaussKernel radius) i
        /\ aget 0 (gaussKernel radius) (2 * radius - i) = aget 0 (gaussKernel radius) i)
  /\ (forall i j, (0 <= i < radius * 2 + 1)%Z -> (0 <= j < radius * 2 + 1)%Z ->
        (Z.abs (i - radius) <= Z.abs (j - radius))%Z ->
        aget 0 (gaussKernel radius) j <= aget 0 (gaussKernel radius) i).
Proof.
  intros Hr. destruct (gaussKernel_spec radius ltac:(lia)) as (Hlen & Hget).
  split; [exact Hlen|]. split.
  - intros i Hi. split; [apply gaussKernel_pos; lia|apply gaussKernel_sym; lia].
  - intros i j Hi Hj Habs. rewrite !Hget by assumption.
    assert (Hpos : 0 < sumZ 0 (Z.to_nat (radius * 2 + 1)) (kernelValue radius))
      by (apply sumZ_pos; [lia|apply kernelValue_pos]).
    unfold Rdiv. apply Rmult_le_compat_r; [left; apply Rinv_0_lt_compat; exact Hpos|].
    apply kernelValue_peaked; assumption.
Qed.

Lemma gaussKernel_shape_witness :
  (1 <= 2)%Z
  /\ alen (gaussKernel 2) = 5%Z
  /\ aget 0 (gaussKernel 2) 4 = aget 0 (gaussKernel 2) 0
  /\ aget 0 (gaussKernel 2) 0 <= aget 0 (gaussKernel 2) 2.
Proof.
  assert (Hr : (1 <= 2)%Z) by lia.
  destruct (gaussKernel_shape 2 Hr) as (Hlen & Hsym & Hpeak).
  split; [exact Hr|]. split; [exact Hlen|]. split.
  - apply (Hsym 0%Z). lia.
  - apply (Hpeak 2%Z 0%Z); lia.
Defined.

(** ** Normalisation: order, rescaling and a second pass *)

Lemma rangeOf_pos (mn mx : R) : mn <= mx -> 0 < rangeOf mn mx.
Proof.
  intros Hle. unfold rangeOf. destruct (Req_dec_T (mx - mn) 0); lra.
Qed.

(** The least and greatest samples of a field are determined by it. *)
Lemma extremes_unique (a : list R) (mn mx mn' mx' : R) :
  (forall i, (0 <= i < alen a)%Z -> mn <= aget 0 a i <= mx) ->
  (exists i, (0 <= i < alen a)%Z /\ aget 0 a i = mn) ->
  (exists i, (0 <= i < alen a)%Z /\ aget 0 a i = mx) ->
  (forall i, (0 <= i < alen a)%Z -> mn' <= aget 0 a i <= mx') ->
  (exists i, (0 <= i < alen a)%Z /\ aget 0 a i = mn') ->
  (exists i, (0 <= i < alen a)%Z /\ aget 0 a i = mx') ->
  mn = mn' /\ mx = mx'.
Proof.
  intros Hall (i1 & Hi1 & E1) (i2 & Hi2 & E2) Hall' (j1 & Hj1 & F1) (j2 & Hj2 & F2).
  pose proof (Hall j1 Hj1). pose proof (Hall j2 Hj2).
  pose proof (Hall' i1 Hi1). pose proof (Hall' i2 Hi2). lra.
Qed.

(** Rescaling every sample by [a * v + b] with [a] positive does not
    change the normalised field. *)
Lemma normaliseArray_affine_lemma (source : list R) (a b : R) :
  0 < a ->
  normaliseArray (List.map (fun v => a * v + b) source) = normaliseArray source.
Proof.
  intros Ha. destruct source as [|v0 rest] eqn:Esrc; [reflexivity|].
  rewrite <- Esrc. assert (Hne : source <> []) by (rewrite Esrc; discriminate).
  clear Esrc v0 rest.
  set (scaled := List.map (fun v => a * v + b) source).
  assert (Hne' : scaled <> []).
  { unfold scaled. destruct source; [congruence|discriminate]. }
  assert (Hlen' : alen scaled = alen source) by (unfold scaled; apply alen_map).
  assert (Hsc : forall i, (0 <= i < alen source)%Z ->
                  aget 0 scaled i = a * aget 0 source i + b).
  { intros i Hi. unfold scaled. apply (aget_map 0 0 (fun v => a * v + b)). exact Hi. }
  destruct (normaliseArray_spec source Hne) as (mn & mx & Hall & Hmn & Hmx & Hl & Hget).
  destruct (normaliseArray_spec scaled Hne') as (mn' & mx' & Hall' & Hmn' & Hmx' & Hl' & Hget').
  assert (Hext : a * mn + b = mn' /\ a * mx + b = mx').
  { apply (extremes_unique scaled); try assumption.
    - intros i Hi. rewrite Hlen' in Hi. rewrite Hsc by exact Hi.
      specialize (Hall i Hi). nra.
    - destruct Hmn as (i & Hi & E). exists i. rewrite Hlen', Hsc, E by exact Hi. tauto.
    - destruct Hmx as (i & Hi & E). exists i. rewrite Hlen', Hsc, E by exact Hi. tauto. }
  destruct Hext as (<- & <-).
  apply array_ext; [congruence|].
  intros i Hi. rewrite Hl', Hlen' in Hi.
  rewrite Hget' by (rewrite Hlen'; exact Hi). rewrite Hget, Hsc by exact Hi.
  specialize (Hall i Hi).
  unfold rangeOf.
  destruct (Req_dec_T (mx - mn) 0) as [Hz|Hnz];
    destruct (Req_dec_T (a * mx + b - (a * mn + b)) 0) as [Hz'|Hnz'].
  - replace (aget 0 source i) with mn by lra. unfold Rdiv. ring.
  - exfalso. apply Hnz'. replace mx with mn by lra. ring.
  - exfalso. apply Hnz. nra.
  - field. split; [exact Hnz|]. intros E. apply Hnz'. lra.
Qed.

(** X13: [normaliseArray] does not change when every sample of its input is
    rescaled by [a * v + b] with [a] positive: it depends only on where
    each sample lies between the least and the greatest. *)
Theorem normaliseArray_affine_invariant (source : list R) (a b : R) :
  0 < a ->
  normaliseArray (List.map (fun v => a * v + b) source) = normaliseArray source.
Proof. apply normaliseArray_affine_lemma. Qed.

Lemma normaliseArray_affine_invariant_witness :
  0 < 2
  /\ normaliseArray (List.map (fun v => 2 * v + 10) [3; 7; 5]) = normaliseArray [3; 7; 5].
Proof.
  assert (H : 0 < 2) by lra.
  split; [exact H|]. apply (normaliseArray_affine_invariant [3; 7; 5] 2 10 H).
Defined.

(** X14: [normaliseArray] returns the empty field for the empty field, keeps
    the number of samples and their order, and applied a second time
    changes nothing. *)
Theorem normaliseArray_order_and_idempotent (source : list R) :
  normaliseArray [] = []
  /\ alen (normaliseArray source) = alen source
  /\ (forall i j, (0 <= i < alen source)%Z -> (0 <= j < alen source)%Z ->
        aget 0 source i <= aget 0 source j ->
        aget 0 (normaliseArray source) i <= aget 0 (normaliseArray source) j)
  /\ normaliseArray (normaliseArray source) = normaliseArray source.
Proof.
  split; [reflexivity|]. split; [apply normaliseArray_length|].
  destruct source as [|v0 rest] eqn:Esrc.
  { split; [intros i j Hi; unfold alen in Hi; simpl in Hi; lia|reflexivity]. }
  rewrite <- Esrc. assert (Hne : source <> []) by (rewrite Esrc; discriminate).
  clear Esrc v0 rest.
  destruct (normaliseArray_spec source Hne) as (mn & mx & Hall & Hmn & Hmx & Hl & Hget).
  assert (Hle : mn <= mx).
  { destruct Hmn as (i & Hi & _). specialize (Hall i Hi). lra. }
  pose proof (rangeOf_pos mn mx Hle) as Hpos.
  split.
  - intros i j Hi Hj Hij. rewrite !Hget by assumption.
    unfold Rdiv. apply Rmult_le_compat_r; [left; apply Rinv_0_lt_compat; exact Hpos|lra].
  - rewrite <- (normaliseArray_affine_lemma source (/ rangeOf mn mx)
                  (- mn / rangeOf mn mx)) at 2
      by (apply Rinv_0_lt_compat; exact Hpos).
    f_equal. apply array_ext; [now rewrite alen_map|].
    intros i Hi. rewrite Hl in Hi.
    rewrite Hget by exact Hi.
    rewrite (aget_map 0 0 (fun v => / rangeOf mn mx * v + - mn / rangeOf mn mx))
      by exact Hi.
    unfold Rdiv. ring.
Qed.

(** ** Crop planning: centring, zoom and missing dimensions *)

Lemma cropBeforeZoom_positive (source : CanvasImageSource) (aspectRatio : R) :
  0 < sourceWidth source -> 0 < sourceHeight source -> 0 < aspectRatio ->
  0 < fst (cropBeforeZoom source aspectRatio) <= sourceWidth source
  /\ 0 < snd (cropBeforeZoom source aspectRatio) <= sourceHeight source
  /\ (fst (cropBeforeZoom source aspectRatio) = sourceWidth source
      \/ snd (cropBeforeZoom source aspectRatio) = sourceHeight source).
Proof.
  intros Hw Hh Ha. unfold cropBeforeZoom.
  set (W := sourceWidth source) in *. set (H := sourceHeight source) in *.
  assert (Hratio : W / H * H = W) by (field; lra).
  assert (Hinv : W / aspectRatio * aspectRatio = W) by (field; lra).
  assert (Hch : 0 < W / aspectRatio) by (apply Rdiv_lt_0_compat; lra).
  destruct (Rlt_dec aspectRatio (W / H)) as [Hwide|Hnarrow]; cbn [fst snd].
  - assert (H * aspectRatio < W) by nra. split; [nra|]. split; [lra|right; reflexivity].
  - assert (W <= aspectRatio * H) by nra.
    split; [lra|]. split; [nra|left; reflexivity].
Qed.

(** X15: The crop is centred in the source; a larger zoom setting never gives
    a larger crop; without zoom (a setting of 0 or less) the crop spans
    the source along one axis at least; and every setting of 60 or more
    gives the crop of 60. *)
Theorem cropToAspect_centred_and_zoom
    (source : CanvasImageSource) (aspectRatio z1 z2 : R) :
  0 < sourceWidth source -> 0 < sourceHeight source -> 0 < aspectRatio ->
  z1 <= z2 ->
  let c1 := cropToAspect source aspectRatio z1 in
  let c2 := cropToAspect source aspectRatio z2 in
  (offsetX c1 + cropWidth c1 / 2 = sourceWidth source / 2
   /\ offsetY c1 + cropHeight c1 / 2 = sourceHeight source / 2)
  /\ (cropWidth c2 <= cropWidth c1 /\ cropHeight c2 <= cropHeight c1)
  /\ (z1 <= 0 ->
      (offsetX c1 = 0 /\ cropWidth c1 = sourceWidth source)
      \/ (offsetY c1 = 0 /\ cropHeight c1 = sourceHeight source))
  /\ (60 <= z1 -> c2 = c1).
Proof.
  intros Hw Hh Ha Hz c1 c2. subst c1 c2.
  destruct (cropBeforeZoom_positive source aspectRatio Hw Hh Ha) as (Hcw & Hch & Hfull).
  unfold cropToAspect.
  destruct (cropBeforeZoom source aspectRatio) as [cw ch]. cbn [fst snd] in *.
  cbn [offsetX offsetY cropWidth cropHeight].
  pose proof (zoom_range z1) as Hr1. pose proof (zoom_range z2) as Hr2.
  pose proof (clamp_mono z1 z2 0 60 Hz) as Hmono.
  set (zoom1 := clamp z1 0 60 / 100 + 1) in *.
  set (zoom2 := clamp z2 0 60 / 100 + 1) in *.
  assert (Hzz : zoom1 <= zoom2) by (unfold zoom1, zoom2; lra).
  assert (Hinv : / zoom2 <= / zoom1) by (apply Rinv_le_contravar; lra).
  assert (Hi2 : 0 < / zoom2) by (apply Rinv_0_lt_compat; lra).
  split; [split; field; lra|]. split; [unfold Rdiv; split; nra|]. split.
  - intros H0. assert (E : zoom1 = 1) by (unfold zoom1; rewrite clamp_low by lra; lra).
    rewrite E. destruct Hfull as [-> | ->]; [left|right]; split; field.
  - intros H60.
    assert (E : zoom2 = zoom1)
      by (unfold zoom1, zoom2; rewrite !clamp_high by lra; reflexivity).
    now rewrite E.
Qed.

Lemma cropToAspect_centred_and_zoom_witness :
  let source := mkSource (Some 1600%Z) (Some 1200%Z) [] in
  18 <= 40
  /\ cropWidth (cropToAspect source (3 / 4) 40) <= cropWidth (cropToAspect source (3 / 4) 18)
  /\ offsetX (cropToAspect source (3 / 4) 18) + cropWidth (cropToAspect source (3 / 4) 18) / 2
     = sourceWidth source / 2.
Proof.
  intros source.
  assert (Hw : 0 < sourceWidth source)
    by (unfold source, sourceWidth; cbn [src_width]; lra).
  assert (Hh : 0 < sourceHeight source)
    by (unfold source, sourceHeight; cbn [src_height]; lra).
  assert (Ha : 0 < 3 / 4) by lra.
  assert (Hz : 18 <= 40) by lra.
  destruct (cropToAspect_centred_and_zoom source (3 / 4) 18 40 Hw Hh Ha Hz)
    as ((Hcx & _) & (Hmw & _) & _).
  split; [exact Hz|]. split; [exact Hmw|exact Hcx].
Defined.

(** X16: A source that has no [width] or [height] property is cropped as a
    900 by 1200 image; with the aspect ratio of the render and no zoom the
    crop is that whole frame. *)
Theorem cropToAspect_missing_dimensions (data : list Z) (aspectRatio zoomFactor : R) :
  cropToAspect (mkSource None None data) aspectRatio zoomFactor
  = cropToAspect (mkSource (Some OUTPUT_WIDTH) (Some OUTPUT_HEIGHT) data)
      aspectRatio zoomFactor
  /\ (zoomFactor <= 0 ->
      cropToAspect (mkSource None None data) (IZR OUTPUT_WIDTH / IZR OUTPUT_HEIGHT) zoomFactor
      = mkCrop 0 0 900 1200).
Proof.
  split; [reflexivity|].
  intros Hz. unfold cropToAspect, cropBeforeZoom, sourceWidth, sourceHeight.
  cbn [src_width src_height]. unfold OUTPUT_WIDTH, OUTPUT_HEIGHT.
  destruct (Rlt_dec (900 / 1200) (900 / 1200)) as [Habs|_]; [lra|].
  rewrite clamp_low by lra. f_equal; field.
Qed.

(** ** The tone-mapped buffer is gray *)

(** X17: The tone-mapping loop keeps the length of the buffer and gives the
    red, green and blue bytes of every pixel one and the same value, a
    byte from 0 to 255. *)
Theorem toneMapPass_grayscale
    (settings : EffectSettings) (data : list Z) (width height idx : Z) :
  (0 <= idx)%Z -> (4 * idx + 2 < alen data)%Z ->
  let out := toneMapPass settings data width height in
  alen out = alen data
  /\ aget 0%Z out (4 * idx + 1) = aget 0%Z out (4 * idx)
  /\ aget 0%Z out (4 * idx + 2) = aget 0%Z out (4 * idx)
  /\ (0 <= aget 0%Z out (4 * idx) <= 255)%Z.
Proof.
  intros Hidx Hlt out. subst out.
  destruct (toneMapPass_spec settings data width height) as (Hlen & Hhit & _).
  cbv zeta in Hhit.
  split; [exact Hlen|].
  assert (H0 : (4 * idx / 4 = idx)%Z) by (Z.div_mod_to_equations; lia).
  assert (H1 : ((4 * idx + 1) / 4 = idx)%Z) by (Z.div_mod_to_equations; lia).
  assert (H2 : ((4 * idx + 2) / 4 = idx)%Z) by (Z.div_mod_to_equations; lia).
  rewrite (Hhit (4 * idx)%Z) by (try (Z.div_mod_to_equations; lia); lia).
  rewrite (Hhit (4 * idx + 1)%Z) by (try (Z.div_mod_to_equations; lia); lia).
  rewrite (Hhit (4 * idx + 2)%Z) by (try (Z.div_mod_to_equations; lia); lia).
  rewrite H0, H1, H2.
  split; [reflexivity|]. split; [reflexivity|apply toUint8Clamp_bounds].
Qed.

Lemma toneMapPass_grayscale_witness :
  let data := [10; 200; 30; 255]%Z in
  (0 <= 0)%Z /\ (4 * 0 + 2 < alen data)%Z
  /\ aget 0%Z (toneMapPass defaultSettings data 1 1) (4 * 0 + 1)
     = aget 0%Z (toneMapPass defaultSettings data 1 1) (4 * 0)
  /\ aget 0%Z (toneMapPass defaultSettings data 1 1) (4 * 0 + 2)
     = aget 0%Z (toneMapPass defaultSettings data 1 1) (4 * 0).
Proof.
  intros data.
  assert (H0 : (0 <= 0)%Z) by lia.
  assert (H1 : (4 * 0 + 2 < alen data)%Z) by (unfold data; vm_compute; reflexivity).
  destruct (toneMapPass_grayscale defaultSettings data 1 1 0 H0 H1) as (_ & Hg & Hb & _).
  split; [exact H0|]. split; [exact H1|]. split; [exact Hg|exact Hb].
Defined.

(** ** Settings outside their ranges *)

Lemma cropToAspect_clamped_zoom (source : CanvasImageSource) (aspectRatio zoomFactor : R) :
  cropToAspect source aspectRatio (clamp zoomFactor 0 60)
  = cropToAspect source aspectRatio zoomFactor.
Proof. unfold cropToAspect. now rewrite clamp_idem. Qed.

Lemma toneMapPass_clampSettings (s : EffectSettings) (data : list Z) (width height : Z) :
  toneMapPass (clampSettings s) data width height = toneMapPass s data width height.
Proof.
  unfold toneMapPass, toneValue, normalisedSobelOf, normalisedDetailOf, detailSourceOf,
    smoothedOf, blurRadiusOf, detailStrengthOf, depthStrengthOf, sheenStrengthOf,
    matteStrengthOf, luminosityShiftOf, clampSettings.
  cbn [depth luminosity sheen matte smoothness microDetail].
  rewrite !clamp_idem. reflexivity.
Qed.

Lemma renderFrame_clampSettings (ua : UserAgent) (source : CanvasImageSource)
    (s : EffectSettings) (width height : Z) (context : Context) :
  renderFrame ua source (clampSettings s) width height context
  = renderFrame ua source s width height context.
Proof.
  unfold renderFrame. cbv zeta. rewrite toneMapPass_clampSettings.
  assert (Hframe : drawSourceFrame ua source (clampSettings s) width height context
                   = drawSourceFrame ua source s width height context).
  { unfold drawSourceFrame, backgroundGradient.
    replace (macroZoom (clampSettings s)) with (clamp (macroZoom s) 0 60) by reflexivity.
    rewrite cropToAspect_clamped_zoom.
    replace (backgroundLift (clampSettings s)) with (clamp (backgroundLift s) 0 100)
      by reflexivity.
    rewrite clamp_idem. reflexivity. }
  rewrite Hframe.
  assert (Hvig : forall c, drawVignette ua (clampSettings s) (IZR width) (IZR height) c
                           = drawVignette ua s (IZR width) (IZR height) c).
  { intros c. unfold drawVignette.
    replace (vignette (clampSettings s)) with (clamp (vignette s) 0 100) by reflexivity.
    rewrite clamp_idem. reflexivity. }
  assert (Hstand : forall c, drawStand ua (clampSettings s) (IZR width) (IZR height) c
                             = drawStand ua s (IZR width) (IZR height) c).
  { intros c. unfold drawStand, depthStrengthOf.
    replace (standHeight (clampSettings s)) with (clamp (standHeight s) 10 45) by reflexivity.
    replace (depth (clampSettings s)) with (clamp (depth s) 0 100) by reflexivity.
    rewrite !clamp_idem. reflexivity. }
  rewrite Hvig, Hstand. reflexivity.
Qed.

(** X18: A render with settings outside their ranges is the render with every
    setting moved to the nearest end of its range: depth, sheen, matte,
    smoothness, microDetail, backgroundLift and vignette to [0,100],
    luminosity to [-50,50], macroZoom to [0,60], standHeight to [10,45]. *)
Theorem render_clamps_settings (ua : UserAgent) (source : CanvasImageSource)
    (s : EffectSettings) (context : Context) :
  renderPlasterEffect ua source (clampSettings s) context
  = renderPlasterEffect ua source s context
  /\ clampSettings (clampSettings s) = clampSettings s
  /\ (0 <= depth (clampSettings s) <= 100
      /\ -50 <= luminosity (clampSettings s) <= 50
      /\ 0 <= macroZoom (clampSettings s) <= 60
      /\ 10 <= standHeight (clampSettings s) <= 45).
Proof.
  split; [unfold renderPlasterEffect; apply renderFrame_clampSettings|]. split.
  - unfold clampSettings.
    cbn [depth luminosity sheen matte smoothness microDetail backgroundLift macroZoom
         standHeight vignette].
    now rewrite !clamp_idem.
  - unfold clampSettings. cbn [depth luminosity macroZoom standHeight].
    repeat split; apply clamp_bounds; lra.
Qed.

(** ** The pedestal and the vignette *)

(** X19: On a frame of positive size the pedestal is centred horizontally,
    stands on the bottom edge, lies inside the frame, is between 10% and
    45% of the frame high and between 36% and 44% of the frame wide. *)
Theorem standRect_geometry (settings : EffectSettings) (width height : R) :
  0 < width -> 0 < height ->
  let r := standRect settings width height in
  rx r + rw r / 2 = width / 2
  /\ ry r + rh r = height
  /\ (height * (10 / 100) <= rh r <= height * (45 / 100))
  /\ (width * (36 / 100) <= rw r <= width * (44 / 100))
  /\ (0 <= rx r /\ rx r + rw r <= width /\ 0 <= ry r).
Proof.
  intros Hw Hh r. subst r. unfold standRect. cbn [rx ry rw rh].
  pose proof (strength_unit (depth settings)) as Hd.
  fold (depthStrengthOf settings) in Hd.
  pose proof (clamp_bounds (standHeight settings) 10 45 ltac:(lra)) as Hs.
  set (d := depthStrengthOf settings) in *.
  set (p := clamp (standHeight settings) 10 45) in *.
  split; [lra|]. split; [lra|]. split; [split; nra|]. split; [split; nra|].
  split; [nra|]. split; nra.
Qed.

Lemma standRect_geometry_witness :
  0 < 900 /\ 0 < 1200
  /\ rx (standRect defaultSettings 900 1200) + rw (standRect defaultSettings 900 1200) / 2
     = 900 / 2
  /\ ry (standRect defaultSettings 900 1200) + rh (standRect defaultSettings 900 1200)
     = 1200.
Proof.
  assert (Hw : 0 < 900) by lra. assert (Hh : 0 < 1200) by lra.
  destruct (standRect_geometry defaultSettings 900 1200 Hw Hh) as (Hc & Hb & _).
  split; [exact Hw|]. split; [exact Hh|]. split; [exact Hc|exact Hb].
Defined.

(** The two pedestal fills of the render use the rectangle [standRect]. *)
Lemma drawStand_standRect (ua : UserAgent) (settings : EffectSettings)
    (width height : R) (c : Context) :
  exists g1 g2 g3 base,
    drawStand ua settings width height c
    = fillRect ua base
        (setFillStyle g3
           (setCompositeOperation SourceOver
              (fillRect ua (standRect settings width height)
                 (setFillStyle g2
                    (setCompositeOperation Multiply
                       (fillRect ua (standRect settings width height)
                          (setFillStyle g1 c))))))).
Proof. do 4 eexists. reflexivity. Qed.

(** X20: With a vignette setting of 0 or less the radial overlay is skipped:
    the context is left exactly as it was; with any setting the overlay
    keeps the number of pixels and the compositing operation. *)
Theorem drawVignette_skipped (ua : UserAgent) (settings : EffectSettings)
    (width height : R) (c : Context) :
  (vignette settings <= 0 -> drawVignette ua settings width height c = c)
  /\ length (bitmap (drawVignette ua settings width height c)) = length (bitmap c)
  /\ globalCompositeOperation (drawVignette ua settings width height c)
     = globalCompositeOperation c.
Proof.
  unfold drawVignette. cbv zeta.
  destruct (Rlt_dec 0 (clamp (vignette settings) 0 100 / 100)) as [Hon|Hoff].
  - split; [|split].
    + intros Hv. rewrite clamp_low in Hon by lra. lra.
    + unfold fillRect, setFillStyle. cbn [bitmap]. apply length_imap.
    + reflexivity.
  - split; [reflexivity|]. split; reflexivity.
Qed.

(** ** A uniform frame *)

Lemma applySobel_constant_zero (field : list R) (width height : Z) (c : R) :
  (0 <= width)%Z -> (0 <= height)%Z -> alen field = (width * height)%Z ->
  (forall i, (0 <= i < alen field)%Z -> aget 0 field i = c) ->
  forall i, aget 0 (applySobel field width height) i = 0.
Proof.
  intros Hw Hh Hlen Hc i.
  destruct (applySobel_spec field width height Hlen) as (Hl & Hin & Hborder).
  destruct (Z_lt_ge_dec i 0) as [Hneg|Hpos]; [apply aget_outside; lia|].
  destruct (Z_lt_ge_dec i (alen field)) as [Hlt|Hge]; [|apply aget_outside; lia].
  destruct (grid_index_decompose width height i Hw Hh ltac:(lia)) as (x & y & Hx & Hy & ->).
  fold (sampleAt (applySobel field width height) width x y).
  destruct (Z_lt_ge_dec x 1); [apply Hborder; lia|].
  destruct (Z_lt_ge_dec y 1); [apply Hborder; lia|].
  destruct (Z_lt_ge_dec x (width - 1)); [|apply Hborder; lia].
  destruct (Z_lt_ge_dec y (height - 1)); [|apply Hborder; lia].
  rewrite Hin by lia. unfold sobelMagnitude.
  destruct (sobelGradient_spec field width x y) as [-> ->].
  assert (Hs : forall x' y', (x - 1 <= x' <= x + 1)%Z -> (y - 1 <= y' <= y + 1)%Z ->
            sampleAt field width x' y' = c).
  { intros x' y' Hx' Hy'. unfold sampleAt. apply Hc. rewrite Hlen.
    apply grid_index_bounds; lia. }
  unfold sobelGxSpec, sobelGySpec.
  rewrite (Hs (x + 1) (y - 1))%Z, (Hs (x + 1) y)%Z, (Hs (x + 1) (y + 1))%Z,
    (Hs (x - 1) (y - 1))%Z, (Hs (x - 1) y)%Z, (Hs (x - 1) (y + 1))%Z,
    (Hs x (y + 1))%Z, (Hs x (y - 1))%Z by lia.
  match goal with |- sqrt ?e = 0 => replace e with 0 by ring end.
  apply sqrt_0.
Qed.

(** X21: A frame whose pixels all have the same colour is tone-mapped to a
    frame whose pixels all have the same gray: the blurred luminance is the
    same at every pixel, the detail and Sobel fields normalise to zero, and
    the colour bytes of any two pixels are equal. *)
Theorem toneMapPass_uniform_frame
    (settings : EffectSettings) (data : list Z) (width height r g b : Z) :
  (0 <= width)%Z -> (0 <= height)%Z -> alen data = (4 * (width * height))%Z ->
  (forall idx, (0 <= idx < width * height)%Z ->
     aget 0%Z data (4 * idx) = r /\ aget 0%Z data (4 * idx + 1) = g
     /\ aget 0%Z data (4 * idx + 2) = b) ->
  forall idx idx', (0 <= idx < width * height)%Z -> (0 <= idx' < width * height)%Z ->
    aget 0 (smoothedOf settings data width height) idx
    = aget 0 (smoothedOf settings data width height) idx'
    /\ aget 0 (normalisedDetailOf settings data width height) idx = 0
    /\ aget 0 (normalisedSobelOf settings data width height) idx = 0
    /\ aget 0%Z (toneMapPass settings data width height) (4 * idx)
       = aget 0%Z (toneMapPass settings data width height) (4 * idx')
    /\ aget 0%Z (toneMapPass settings data width height) (4 * idx + 1)
       = aget 0%Z (toneMapPass settings data width height) (4 * idx')
    /\ aget 0%Z (toneMapPass settings data width height) (4 * idx + 2)
       = aget 0%Z (toneMapPass settings data width height) (4 * idx').
Proof.
  intros Hw Hh Hlen Hpix.
  set (c := IZR r * (299 / 1000) + IZR g * (587 / 1000) + IZR b * (114 / 1000)).
  assert (Hn : (0 <= width * height)%Z) by nia.
  pose proof (luminanceOf_length data width height Hn) as Hl.
  assert (Hlum : forall i, (0 <= i < alen (luminanceOf data width height))%Z ->
                   aget 0 (luminanceOf data width height) i = c).
  { intros i Hi. rewrite Hl in Hi.
    rewrite (luminanceOf_spec data width height Hn Hlen) by exact Hi.
    destruct (Hpix i Hi) as (-> & -> & ->). reflexivity. }
  assert (Hconst : constantField (luminanceOf data width height)).
  { intros u w Hu Hw'.
    apply (in_aget 0) in Hu as (iu & Hiu & <-).
    apply (in_aget 0) in Hw' as (iw & Hiw & <-).
    now rewrite !Hlum. }
  assert (Hsm : smoothedOf settings data width height = luminanceOf data width height).
  { unfold smoothedOf. apply gaussianBlur_constant; assumption. }
  assert (Hdet : forall i, aget 0 (normalisedDetailOf settings data width height) i = 0).
  { apply normaliseArray_zero. intros i. unfold detailSourceOf. rewrite Hsm.
    set (luminance := luminanceOf data width height).
    destruct (tabulate_spec (fun i => aget 0 luminance i - aget 0 luminance i)
                (alen luminance) (alen_nonneg _)) as (Hlen' & Hget).
    destruct (Z_lt_ge_dec i 0) as [Hneg|Hpos];
      [apply aget_outside; rewrite Hlen'; lia|].
    destruct (Z_lt_ge_dec i (alen luminance)) as [Hin|Hout];
      [|apply aget_outside; rewrite Hlen'; lia].
    rewrite Hget by lia. lra. }
  assert (Hsob : forall i, aget 0 (normalisedSobelOf settings data width height) i = 0).
  { apply normaliseArray_zero. rewrite Hsm.
    apply (applySobel_constant_zero _ width height c); assumption. }
  destruct (toneMapPass_spec settings data width height) as (_ & Hhit & _).
  cbv zeta in Hhit.
  assert (Hs : forall i, (0 <= i < width * height)%Z ->
                 aget 0 (smoothedOf settings data width height) i = c)
    by (intros i Hi; rewrite Hsm; apply Hlum; rewrite Hl; exact Hi).
  assert (Hbyte : forall i k, (0 <= i < width * height)%Z -> (0 <= k <= 2)%Z ->
            aget 0%Z (toneMapPass settings data width height) (4 * i + k)
            = toUint8Clamp (toneValue settings c 0 0)).
  { intros i k Hi Hk.
    assert (Hq : ((4 * i + k) / 4 = i)%Z) by (Z.div_mod_to_equations; lia).
    rewrite Hhit by (try (Z.div_mod_to_equations; lia); lia).
    now rewrite Hq, Hs, Hdet, Hsob. }
  intros idx idx' Hidx Hidx'.
  split; [now rewrite !Hs|]. split; [apply Hdet|]. split; [apply Hsob|].
  pose proof (Hbyte idx 0%Z Hidx ltac:(lia)) as E0.
  pose proof (Hbyte idx 1%Z Hidx ltac:(lia)) as E1.
  pose proof (Hbyte idx 2%Z Hidx ltac:(lia)) as E2.
  pose proof (Hbyte idx' 0%Z Hidx' ltac:(lia)) as E0'.
  rewrite Z.add_0_r in E0, E0'.
  split; [congruence|]. split; congruence.
Qed.

Lemma toneMapPass_uniform_frame_witness :
  let data := [128; 128; 128; 255; 128; 128; 128; 255]%Z in
  (0 <= 2)%Z /\ (0 <= 1)%Z /\ alen data = (4 * (2 * 1))%Z
  /\ aget 0 (smoothedOf defaultSettings data 2 1) 0
     = aget 0 (smoothedOf defaultSettings data 2 1) 1
  /\ aget 0%Z (toneMapPass defaultSettings data 2 1) (4 * 0 + 2)
     = aget 0%Z (toneMapPass defaultSettings data 2 1) (4 * 1).
Proof.
  intros data.
  assert (Hw : (0 <= 2)%Z) by lia. assert (Hh : (0 <= 1)%Z) by lia.
  assert (Hlen : alen data = (4 * (2 * 1))%Z) by reflexivity.
  assert (Hpix : forall idx, (0 <= idx < 2 * 1)%Z ->
            aget 0%Z data (4 * idx) = 128%Z /\ aget 0%Z data (4 * idx + 1) = 128%Z
            /\ aget 0%Z data (4 * idx + 2) = 128%Z).
  { intros idx Hidx. assert (Hc : (idx = 0 \/ idx = 1)%Z) by lia.
    destruct Hc as [-> | ->]; repeat split; reflexivity. }
  destruct (toneMapPass_uniform_frame defaultSettings data 2 1 128 128 128
              Hw Hh Hlen Hpix 0%Z 1%Z ltac:(lia) ltac:(lia))
    as (Hs & _ & _ & _ & _ & Hb).
  split; [exact Hw|]. split; [exact Hh|]. split; [exact Hlen|].
  split; [exact Hs|exact Hb].
Defined.

(** ** The top-left pixel of the frame through the render *)













